(** * Oclgrind work-group scheduler: [src/spirsim/WorkGroup.cpp]

    A shallow embedding of [spirsim::WorkGroup]: the constructor, the event
    registry ([async_copy], [wait_event], the group copy inside [run]) and the
    round-based scheduling loop of [run], the accessors and the dumps,
    followed by the properties of the design document that concern them and
    by further properties of the code.

    Conventions.
    - Event handles ([uint64_t]) and the addresses and sizes of copies
      ([size_t]) are integers of [Z] in [0, 2^64); the one arithmetic
      operation the file performs on handles, [m_nextEvent++], has its
      wrap-around written out.
    - [std::map<uint64_t, list<AsyncCopy>>] is a [gmap Z (list AsyncCopy)] and
      [std::set<uint64_t>] a [gset Z]; both C++ containers iterate in ascending
      key order, which [ascending] reproduces.
    - Group sizes, local coordinates and array indices are natural numbers;
      the [size_t] products and sums of the constructor (the number of items
      and the index of an item) have their wrap-around at 2^64 written out,
      and a write past the end of the item array gives no group. The [int]
      loop counters and tallies of [run] are natural numbers: they never
      exceed [m_totalWorkItems].
    - [Memory], [WorkItem] and [Kernel] are collaborators whose code is not
      part of this file; they enter as interfaces (type classes).
    - The two [while] loops of [run] need not terminate: the model bounds
      them by a number of iterations ([fuel]) and says [OutOfFuel] when the
      bound is reached; a failed [assert] is [Aborts].
    - The destructor is not modelled: it frees what the constructor
      allocated, and the model has no heap. *)

From Stdlib Require Import ZArith Lia Bool.
From stdpp Require Import base tactics option list sorting gmap strings.

Local Open Scope Z_scope.

(** ** Machine integers *)

Definition UINT64_MOD : Z := 2 ^ 64.

(** [x++] on a [uint64_t]: the value after the increment. *)
Definition uint64_succ (x : Z) : Z := (x + 1) mod UINT64_MOD.

(** Iteration order of [std::set<uint64_t>] and of the keys of a [std::map]. *)
Definition ascending (s : gset Z) : list Z := merge_sort Z.le (elements s).

(** ** Asynchronous copy descriptors *)

Inductive AsyncCopyType := GLOBAL_TO_LOCAL | LOCAL_TO_GLOBAL.

#[global] Instance AsyncCopyType_eq_dec : EqDecision AsyncCopyType.
Proof. solve_decision. Defined.

(** [WorkGroup::AsyncCopy]. [instruction] is a [const llvm::Instruction*]:
    only its identity (the address) is ever used. *)
Record AsyncCopy := mkAsyncCopy {
  instruction : Z;
  type : AsyncCopyType;
  dest : Z;
  src : Z;
  size : Z
}.

#[global] Instance AsyncCopy_eq_dec : EqDecision AsyncCopy.
Proof. solve_decision. Defined.

(** [WorkGroup::AsyncCopy::operator==] (lines 287-295). *)
Definition AsyncCopy_eqb (self copy : AsyncCopy) : bool :=
  (instruction self =? instruction copy) &&
  bool_decide (type self = type copy) &&
  (dest self =? dest copy) &&
  (src self =? src copy) &&
  (size self =? size copy).

(** ** The memory collaborator *)

(** The part of [Memory] the work-group uses: [clone], and [load]/[store] of
    [size] bytes at an address through a byte buffer. [load] gives the
    contents of the buffer after the call. *)
Class MemoryOps (Memory : Type) := {
  clone : Memory → Memory;
  load : Memory → Z → Z → list Byte.byte;
  store : Memory → list Byte.byte → Z → Z → Memory
}.

(** ** The work-group record *)

(** The members of [WorkGroup] that its work-items can read or, through
    [async_copy], [wait_event] and the memories, change. The two members no
    work-item can reach, [m_totalWorkItems] and [m_workItems], are fields of
    [Machine] below. *)
Record WorkGroup (Memory : Type) := mkWorkGroup {
  m_workDim : nat;
  m_globalSize : nat * nat * nat;
  m_groupID : nat * nat * nat;
  m_groupSize : nat * nat * nat;
  m_localMemory : Memory;
  m_globalMemory : Memory;
  m_nextEvent : Z;
  m_pendingEvents : gmap Z (list AsyncCopy);
  m_waitEvents : gset Z
}.

Arguments mkWorkGroup {Memory}.
Arguments m_workDim {Memory}.
Arguments m_globalSize {Memory}.
Arguments m_groupID {Memory}.
Arguments m_groupSize {Memory}.
Arguments m_localMemory {Memory}.
Arguments m_globalMemory {Memory}.
Arguments m_nextEvent {Memory}.
Arguments m_pendingEvents {Memory}.
Arguments m_waitEvents {Memory}.

Section Registry.
Context {Memory : Type}.
Implicit Types (wg : WorkGroup Memory) (copy : AsyncCopy).

Definition set_registry (n : Z) (p : gmap Z (list AsyncCopy)) (w : gset Z) wg
  : WorkGroup Memory :=
  mkWorkGroup (m_workDim wg) (m_globalSize wg) (m_groupID wg) (m_groupSize wg)
    (m_localMemory wg) (m_globalMemory wg) n p w.

Definition set_memories (l g : Memory) wg : WorkGroup Memory :=
  mkWorkGroup (m_workDim wg) (m_globalSize wg) (m_groupID wg) (m_groupSize wg)
    l g (m_nextEvent wg) (m_pendingEvents wg) (m_waitEvents wg).

(** The inner loop of [async_copy] (lines 79-85): does the list hold a
    descriptor equal to [copy]? *)
Fixpoint scan_copies (copies : list AsyncCopy) copy : bool :=
  match copies with
  | [] => false
  | c :: rest => if AsyncCopy_eqb c copy then true else scan_copies rest copy
  end.

(** The outer loop (lines 76-86) over the handles in ascending order; the
    handle of the first list that holds an equal descriptor is returned. *)
Fixpoint scan_events (pending : gmap Z (list AsyncCopy)) (handles : list Z)
    copy : option Z :=
  match handles with
  | [] => None
  | h :: rest =>
      if scan_copies (default [] (pending !! h)) copy then Some h
      else scan_events pending rest copy
  end.

(** [WorkGroup::async_copy] (lines 72-93). The parameter [event] is
    assigned before it is read. *)
Definition async_copy copy (event : Z) wg : Z * WorkGroup Memory :=
  match scan_events (m_pendingEvents wg) (ascending (dom (m_pendingEvents wg))) copy with
  | Some h => (h, wg)
  | None =>
      let event := m_nextEvent wg in
      let next := uint64_succ (m_nextEvent wg) in
      let pending := <[event := []]> (m_pendingEvents wg) in
      let pending := <[event := default [] (pending !! event) ++ [copy]]> pending in
      (event, set_registry next pending (m_waitEvents wg) wg)
  end.

(** [WorkGroup::wait_event] (lines 280-285); [None] is the failed
    [assert], which aborts the process. *)
Definition wait_event (event : Z) wg : option (WorkGroup Memory) :=
  if decide (is_Some (m_pendingEvents wg !! event)) then
    Some (set_registry (m_nextEvent wg) (m_pendingEvents wg)
            ({[event]} ∪ m_waitEvents wg) wg)
  else None.

Context `{!MemoryOps Memory}.

(** One descriptor of the group copy (lines 234-252): the memories are
    chosen by direction, [size] bytes are loaded from the source at [src]
    into a buffer and the buffer is stored to the destination at [dest].
    The state is the pair (local memory, global memory). *)
Definition perform_copy (mem : Memory * Memory) (itr : AsyncCopy)
  : Memory * Memory :=
  let '(localMem, globalMem) := mem in
  if decide (type itr = GLOBAL_TO_LOCAL) then
    let buffer := load globalMem (src itr) (size itr) in
    (store localMem buffer (dest itr) (size itr), globalMem)
  else
    let buffer := load localMem (src itr) (size itr) in
    (localMem, store globalMem buffer (dest itr) (size itr)).

(** The loop over the descriptors of one handle (lines 232-253). *)
Fixpoint copy_loop (copies : list AsyncCopy) (mem : Memory * Memory)
  : Memory * Memory :=
  match copies with
  | [] => mem
  | itr :: rest => copy_loop rest (perform_copy mem itr)
  end.

(** [m_pendingEvents[h]] (line 230): [operator[]] gives the list stored
    under [h], after inserting an empty one when there is none. *)
Definition pending_at (h : Z) (pending : gmap Z (list AsyncCopy))
  : list AsyncCopy * gmap Z (list AsyncCopy) :=
  match pending !! h with
  | Some copies => (copies, pending)
  | None => ([], <[h := []]> pending)
  end.

(** The loop over [m_waitEvents] (lines 228-255). *)
Fixpoint event_loop (handles : list Z) wg : WorkGroup Memory :=
  match handles with
  | [] => wg
  | h :: rest =>
      let '(copies, pending) := pending_at h (m_pendingEvents wg) in
      let '(l, g) := copy_loop copies (m_localMemory wg, m_globalMemory wg) in
      let pending := delete h pending in
      event_loop rest
        (set_memories l g (set_registry (m_nextEvent wg) pending (m_waitEvents wg) wg))
  end.

(** The group copy of [run] (lines 226-256), [m_waitEvents.clear()]
    included. *)
Definition group_copy wg : WorkGroup Memory :=
  let wg' := event_loop (ascending (m_waitEvents wg)) wg in
  set_registry (m_nextEvent wg') (m_pendingEvents wg') ∅ wg'.

End Registry.

(** ** The work-item collaborator *)

(** [WorkItem::State]. *)
Inductive State := READY | BARRIER | WAIT_EVENT | FINISHED.

#[global] Instance State_eq_dec : EqDecision State.
Proof. solve_decision. Defined.

(** The part of [WorkItem] the work-group uses. A work-item holds a reference
    to its group and to global memory, so [step] receives the group and gives
    it back: it may request copies, wait for events and access the memories.
    It cannot reach the item array or its length, which are kept beside the
    group record, in [Machine]. [step] gives [None] when the process is
    aborted inside it (the [assert] of [wait_event]); the [State] that
    [WorkItem::step] returns is the state of the item after the step.
    [WorkItem_new] is the constructor, given the group under construction,
    the kernel and the local coordinate.

    [clearBarrier_BARRIER] and [clearBarrier_WAIT_EVENT] record what the
    scheduler relies on when it releases the items: an item suspended at a
    barrier or at an event wait is READY again after [clearBarrier]. *)
Class WorkItemOps (Memory Kernel WorkItem : Type) := {
  WorkItem_new : WorkGroup Memory → Kernel → nat → nat → nat → WorkItem;
  getState : WorkItem → State;
  getGlobalID : WorkItem → nat * nat * nat;
  step : bool → WorkItem → WorkGroup Memory → option (WorkItem * WorkGroup Memory);
  clearBarrier : WorkItem → WorkItem;
  clearBarrier_BARRIER w :
    getState w = BARRIER → getState (clearBarrier w) = READY;
  clearBarrier_WAIT_EVENT w :
    getState w = WAIT_EVENT → getState (clearBarrier w) = READY
}.

(** The part of [Kernel] the constructor uses: the local memory to clone. *)
Class KernelOps (Memory Kernel : Type) := {
  getLocalMemory : Kernel → Memory
}.

(** ** Results of loops that need not terminate *)

(** [Returns a]: the code ran to its end; [Aborts]: the process was aborted
    (a failed [assert], an access outside the item array); [OutOfFuel]: the
    loop bound given to the model was reached. *)
Inductive outcome (A : Type) :=
  | Returns (a : A)
  | Aborts
  | OutOfFuel.
Arguments Returns {A}.
Arguments Aborts {A}.
Arguments OutOfFuel {A}.

Definition bind {A B} (x : outcome A) (f : A → outcome B) : outcome B :=
  match x with
  | Returns a => f a
  | Aborts => Aborts
  | OutOfFuel => OutOfFuel
  end.

Notation "x ←! e1 ; e2" := (bind e1 (λ x, e2))
  (at level 20, e1 at level 100, e2 at level 200, right associativity,
   only parsing).
Notation "' p ←! e1 ; e2" := (bind e1 (λ p, e2))
  (at level 20, p pattern, e1 at level 100, e2 at level 200,
   right associativity, only parsing).

(** [for (int i = start; i < start + n; i++) body(i)]. *)
Fixpoint for_loop {St : Type} (n start : nat) (body : nat → St → outcome St)
    (s : St) : outcome St :=
  match n with
  | O => Returns s
  | S n' => s' ←! body start s; for_loop n' (S start) body s'
  end.

(** ** Standard output *)

(** What [run] writes to [cout], item by item. [Sep] is the macro
    [SMALL_SEPARATOR] of common.h. Text written by the work-items themselves
    is not recorded. *)
Inductive out := Sep | Str (s : string) | Num (n : nat) | Endl.

#[global] Instance out_eq_dec : EqDecision out.
Proof. solve_decision. Defined.

(** ** The scheduler *)

(** The whole [WorkGroup] object, with the standard output beside it. *)
Record Machine (Memory WorkItem : Type) := mkMachine {
  group : WorkGroup Memory;
  m_totalWorkItems : nat;
  m_workItems : list WorkItem;
  cout : list out
}.
Arguments mkMachine {Memory WorkItem}.
Arguments group {Memory WorkItem}.
Arguments m_totalWorkItems {Memory WorkItem}.
Arguments m_workItems {Memory WorkItem}.
Arguments cout {Memory WorkItem}.

(** The three tallies of a pass; [numFinished] lives across passes. *)
Record Tallies := mkTallies {
  numBarriers : nat;
  numWaitEvents : nat;
  numFinished : nat
}.

(** The three ways out of [run]: the loop condition fails (line 144), or one
    of the two [return]s is executed (lines 221 and 270). *)
Inductive Exit := Completed | BarrierDivergence | WaitEventDivergence.

#[global] Instance Exit_eq_dec : EqDecision Exit.
Proof. solve_decision. Defined.

(** How the body of the [while] loop ends: it falls through to the next
    test of the loop condition, or it returns from [run]. *)
Inductive flow (A : Type) :=
  | Continue (a : A)
  | Return (e : Exit) (a : A).
Arguments Continue {A}.
Arguments Return {A}.

(** The two divergence reports (lines 220 and 269). *)
Definition msg_barrier_divergence : list out :=
  [Str "Barrier divergence detected."; Endl].

Definition msg_wait_divergence : list out :=
  [Str "Wait for events divergence detected."; Endl].

(** ** [size_t] arithmetic

    Group sizes, local coordinates and array indices are [size_t] values,
    64 bits wide on a 64-bit target, as wide as the event handles. Their
    sums and products wrap around. *)

Definition SIZE_MOD : Z := 2 ^ 64.

Definition size_wrap (n : nat) : nat := Z.to_nat (Z.of_nat n mod SIZE_MOD).

Definition size_add (a b : nat) : nat := size_wrap (a + b).

Definition size_mul (a b : nat) : nat := size_wrap (a * b).

Section Scheduler.
Context {Memory Kernel WorkItem : Type}.
Context `{!MemoryOps Memory} `{!KernelOps Memory Kernel}
        `{!WorkItemOps Memory Kernel WorkItem}.

Abbreviation machine := (Machine Memory WorkItem).
Implicit Types (m : machine) (t : Tallies) (wg : WorkGroup Memory)
               (w : WorkItem).

(** *** Construction (lines 21-58) *)


(** The index computed at line 52,
    [i + (j + k*groupSize[1])*groupSize[0]] in [size_t] arithmetic. *)
Definition slot_index (groupSize : nat * nat * nat) (i j k : nat) : nat :=
  let '(gx, gy, _) := groupSize in
  size_add i (size_mul (size_add j (size_mul k gy)) gx).

(** The three nested loops (lines 45-55) over an array of
    [m_totalWorkItems] pointers, [None] being a slot not yet assigned. A
    write past the end of the array is undefined behaviour: the loops stop
    there and no group results. *)
Definition construct_items wg (kernel : Kernel)
    (slots : list (option WorkItem)) : outcome (list (option WorkItem)) :=
  let '(gx, gy, gz) := m_groupSize wg in
  for_loop gz 0%nat (λ k, for_loop gy 0%nat (λ j, for_loop gx 0%nat (λ i slots,
    let workItem := WorkItem_new wg kernel i j k in
    let idx := slot_index (m_groupSize wg) i j k in
    if decide (idx < length slots)%nat
    then Returns (<[idx := Some workItem]> slots)
    else Aborts)))
    slots.

(** [WorkGroup::WorkGroup]. The map and the set start empty; the work-items
    receive the group with its identity and its local memory. The counter
    is set last (line 57), after the work-items are built; no work-item can
    read it, so the record they receive already holds its value. The number
    of items (line 43) is a [size_t] product. The result is [None] if a
    write went past the end of the array or a slot of the array was left
    unassigned. *)
Definition WorkGroup_new (kernel : Kernel) (globalMem : Memory)
    (workDim : nat) (wgid_x wgid_y wgid_z : nat)
    (globalSize groupSize : nat * nat * nat) : option machine :=
  let '(gx, gy, gz) := groupSize in
  let total := size_mul (size_mul gx gy) gz in
  let wg := mkWorkGroup workDim globalSize (wgid_x, wgid_y, wgid_z) groupSize
              (clone (getLocalMemory kernel)) globalMem 1 ∅ ∅ in
  match construct_items wg kernel (replicate total None) with
  | Returns slots => items ← mapM id slots; Some (mkMachine wg total items [])
  | _ => None
  end.

(** *** One pass over the work-items (lines 147-203) *)

Definition emit (o : list out) m : machine :=
  mkMachine (group m) (m_totalWorkItems m) (m_workItems m) (cout m ++ o).

Definition emit_if (b : bool) (o : list out) m : machine :=
  if b then emit o m else m.

(** [while (state == READY) state = workItem->step(outputInstructions);]
    (lines 169-173), with the number of iterations bounded by [fuel]. *)
Fixpoint run_item (fuel : nat) (outputInstructions : bool) w wg
  : outcome (WorkItem * WorkGroup Memory) :=
  if decide (getState w = READY) then
    match fuel with
    | O => OutOfFuel
    | S fuel' =>
        match step outputInstructions w wg with
        | None => Aborts
        | Some (w', wg') => run_item fuel' outputInstructions w' wg'
        end
    end
  else Returns (w, wg).

Definition header w : list out :=
  let '(g0, g1, g2) := getGlobalID w in
  [Sep; Endl; Str "Work-item ("; Num g0; Str ","; Num g1; Str ","; Num g2;
   Str "):"; Endl].

(** The body of the [for] loop (lines 151-202). *)
Definition visit (fuel : nat) (outputInstructions : bool) (i : nat)
    (s : Tallies * machine) : outcome (Tallies * machine) :=
  let '(t, m) := s in
  match m_workItems m !! i with
  | None => Aborts
  | Some workItem =>
      if decide (getState workItem ≠ READY) then Returns s
      else
        let m := emit_if outputInstructions (header workItem) m in
        '(workItem, wg) ←! run_item fuel outputInstructions workItem (group m);
        let m := mkMachine wg (m_totalWorkItems m) (<[i := workItem]> (m_workItems m))
                   (cout m) in
        match getState workItem with
        | BARRIER =>
            Returns (mkTallies (S (numBarriers t)) (numWaitEvents t) (numFinished t),
                     emit_if outputInstructions
                       [Sep; Endl; Str "Barrier reached."; Endl] m)
        | WAIT_EVENT =>
            Returns (mkTallies (numBarriers t) (S (numWaitEvents t)) (numFinished t),
                     emit_if outputInstructions
                       [Sep; Endl; Str "Wait for events reached."; Endl] m)
        | FINISHED =>
            Returns (mkTallies (numBarriers t) (numWaitEvents t) (S (numFinished t)),
                     emit_if outputInstructions
                       [Sep; Endl; Str "Kernel completed."; Endl] m)
        | READY => Returns (t, m)
        end
  end.

(** The [for] loop of a pass, the two tallies of the pass starting at 0. *)
Definition run_items (fuel : nat) (outputInstructions : bool)
    (finished : nat) m : outcome (Tallies * machine) :=
  for_loop (m_totalWorkItems m) 0%nat (visit fuel outputInstructions)
    (mkTallies 0 0 finished, m).

(** *** Release and convergence checks (lines 205-271) *)

(** [for (i...) m_workItems[i]->clearBarrier();] (lines 209-212, 258-261). *)
Definition release_body (i : nat) m : outcome machine :=
  match m_workItems m !! i with
  | None => Aborts
  | Some workItem =>
      Returns (mkMachine (group m) (m_totalWorkItems m)
                 (<[i := clearBarrier workItem]> (m_workItems m)) (cout m))
  end.

Definition release_all m : outcome machine :=
  for_loop (m_totalWorkItems m) 0%nat release_body m.

(** Lines 207-222. *)
Definition check_barriers (outputInstructions : bool) t m
  : outcome (flow machine) :=
  if decide (numBarriers t = m_totalWorkItems m) then
    m ←! release_all m;
    Returns (Continue (emit_if outputInstructions
               [Str "All work-items reached barrier."; Endl] m))
  else if decide (0 < numBarriers t)%nat then
    Returns (Return BarrierDivergence (emit msg_barrier_divergence m))
  else Returns (Continue m).

(** Lines 224-271. *)
Definition check_wait_events (outputInstructions : bool) t m
  : outcome (flow machine) :=
  if decide (numWaitEvents t = m_totalWorkItems m) then
    let m := mkMachine (group_copy (group m)) (m_totalWorkItems m)
                 (m_workItems m) (cout m) in
    m ←! release_all m;
    Returns (Continue (emit_if outputInstructions
               [Str "All work-items reached wait for events."; Endl] m))
  else if decide (0 < numWaitEvents t)%nat then
    Returns (Return WaitEventDivergence (emit msg_wait_divergence m))
  else Returns (Continue m).

(** The body of the [while] loop (lines 146-271). *)
Definition run_pass (fuel : nat) (outputInstructions : bool)
    (finished : nat) m : outcome (flow (nat * machine)) :=
  '(t, m) ←! run_items fuel outputInstructions finished m;
  r ←! check_barriers outputInstructions t m;
  match r with
  | Return e m => Returns (Return e (numFinished t, m))
  | Continue m =>
      r ←! check_wait_events outputInstructions t m;
      match r with
      | Return e m => Returns (Return e (numFinished t, m))
      | Continue m => Returns (Continue (numFinished t, m))
      end
  end.

(** The [while] loop (lines 144-272): at most [fuel] passes, each item
    stepped at most [fuel] times in a pass. The result carries the exit
    taken. *)
Fixpoint run_loop (fuel : nat) (outputInstructions : bool)
    (finished : nat) m : outcome (Exit * machine) :=
  if decide (finished < m_totalWorkItems m)%nat then
    match fuel with
    | O => OutOfFuel
    | S fuel' =>
        r ←! run_pass fuel' outputInstructions finished m;
        match r with
        | Return e (_, m) => Returns (e, m)
        | Continue (finished, m) =>
            run_loop fuel' outputInstructions finished m
        end
    end
  else Returns (Completed, m).

(** [WorkGroup::run] (lines 138-278), with the exit taken. *)
Definition run_traced (fuel : nat) (outputInstructions : bool) m
  : outcome (Exit * machine) :=
  '(e, m) ←! run_loop fuel outputInstructions 0%nat m;
  match e with
  | Completed =>
      Returns (e, emit_if outputInstructions
                    [Str "All work-items completed kernel."; Endl] m)
  | _ => Returns (e, m)
  end.

(** What the caller of the [void] function [run] is handed: nothing. *)
Definition run (fuel : nat) (outputInstructions : bool) m : outcome unit :=
  _ ←! run_traced fuel outputInstructions m; Returns tt.

End Scheduler.

(** ** A byte-addressed memory and scripted work-items

    Concrete collaborators, used to run the scheduler on examples. *)

(** Modelled from the spec: the Memory Space collaborator (Memory.cpp is not
    part of this file), as "an addressable byte space supporting load, store
    and clone". Every address holds a byte, zero until it is written. *)
Abbreviation ByteMem := (gmap Z Byte.byte).

(** Modelled from the spec: [load], the [sz] bytes from [addr] on. *)
Definition ByteMem_load (mem : ByteMem) (addr sz : Z) : list Byte.byte :=
  (λ k, default Byte.x00 (mem !! (addr + k))) <$> seqZ 0 sz.

(** Modelled from the spec: [store], the first [sz] bytes of the buffer
    written from [addr] on. *)
Definition ByteMem_store (mem : ByteMem) (buffer : list Byte.byte) (addr sz : Z)
  : ByteMem :=
  fold_left (λ acc kb, <[addr + kb.1 := kb.2]> acc) (zip (seqZ 0 sz) buffer) mem.

#[global] Instance ByteMem_ops : MemoryOps ByteMem := {|
  clone mem := mem;
  load := ByteMem_load;
  store := ByteMem_store
|}.

(** Modelled from the spec: the Work-Item collaborator (WorkItem.cpp is not
    part of this file), as "one virtual thread bound to a 3-D local coordinate
    [that] exposes a state (READY, BARRIER, WAIT_EVENT, FINISHED) and a step
    operation that executes one unit of kernel work and returns the new
    state". The kernel work is a script: each step consumes one instruction,
    and a step with the script exhausted finishes the item. *)
Inductive Instr :=
  | INop
  | IBarrier
  | IAsyncCopy (copy : AsyncCopy)
  | IWaitEvent
  | IWaitFor (event : Z).

Record ScriptItem := mkScriptItem {
  si_state : State;
  si_script : list Instr;
  si_event : Z;
  si_globalID : nat * nat * nat
}.

Record ScriptKernel := mkScriptKernel {
  sk_localMemory : ByteMem;
  sk_script : nat → nat → nat → list Instr
}.

(** Modelled from the spec: [WorkItem::step]. A request stores the handle
    it gets in the item; a wait goes through [wait_event], whose failed
    assertion aborts the step. *)
Definition ScriptItem_step (outputInstructions : bool) (w : ScriptItem)
    (wg : WorkGroup ByteMem) : option (ScriptItem * WorkGroup ByteMem) :=
  match si_script w with
  | [] => Some (mkScriptItem FINISHED [] (si_event w) (si_globalID w), wg)
  | INop :: rest =>
      Some (mkScriptItem READY rest (si_event w) (si_globalID w), wg)
  | IBarrier :: rest =>
      Some (mkScriptItem BARRIER rest (si_event w) (si_globalID w), wg)
  | IAsyncCopy copy :: rest =>
      let '(event, wg') := async_copy copy 0 wg in
      Some (mkScriptItem READY rest event (si_globalID w), wg')
  | IWaitEvent :: rest =>
      wg' ← wait_event (si_event w) wg;
      Some (mkScriptItem WAIT_EVENT rest (si_event w) (si_globalID w), wg')
  | IWaitFor event :: rest =>
      wg' ← wait_event event wg;
      Some (mkScriptItem WAIT_EVENT rest (si_event w) (si_globalID w), wg')
  end.

(** Modelled from the spec: [WorkItem::clearBarrier], the release of an item
    suspended at a barrier or at an event wait. *)
Definition ScriptItem_clearBarrier (w : ScriptItem) : ScriptItem :=
  match si_state w with
  | BARRIER | WAIT_EVENT =>
      mkScriptItem READY (si_script w) (si_event w) (si_globalID w)
  | _ => w
  end.

(** Modelled from the spec: the constructor of [WorkItem]; a new item is
    READY. *)
Definition ScriptItem_new (wg : WorkGroup ByteMem) (kernel : ScriptKernel)
    (i j k : nat) : ScriptItem :=
  let '(gx, gy, gz) := m_groupSize wg in
  let '(ix, iy, iz) := m_groupID wg in
  mkScriptItem READY (sk_script kernel i j k) 0
    (i + ix * gx, j + iy * gy, k + iz * gz)%nat.

#[global] Instance ScriptKernel_ops : KernelOps ByteMem ScriptKernel := {|
  getLocalMemory := sk_localMemory
|}.

#[global] Program Instance ScriptItem_ops
  : WorkItemOps ByteMem ScriptKernel ScriptItem := {|
  WorkItem_new := ScriptItem_new;
  getState := si_state;
  getGlobalID := si_globalID;
  step := ScriptItem_step;
  clearBarrier := ScriptItem_clearBarrier
|}.
Next Obligation. intros w Hw. unfold ScriptItem_clearBarrier. by rewrite Hw. Qed.
Next Obligation. intros w Hw. unfold ScriptItem_clearBarrier. by rewrite Hw. Qed.

(** ** The life of an event registry

    The registry members change only through [async_copy], [wait_event] and
    the group copy of [run]. A history is a sequence of such operations; it
    is replayed together with a log of the allocations: the handle handed
    out and the descriptor stored under it, oldest first. *)

Inductive RegistryOp :=
  | OpAsyncCopy (copy : AsyncCopy) (event : Z)
  | OpWaitEvent (event : Z)
  | OpGroupCopy.

Section History.
Context {Memory : Type} `{!MemoryOps Memory}.

(** Does [async_copy] find no equal descriptor, and so allocate? *)
Definition allocates (copy : AsyncCopy) (wg : WorkGroup Memory) : bool :=
  bool_decide (scan_events (m_pendingEvents wg)
                 (ascending (dom (m_pendingEvents wg))) copy = None).

(** One operation; [None] when the process is aborted by [wait_event]. *)
Definition apply_op (op : RegistryOp) (s : WorkGroup Memory * list (Z * AsyncCopy))
  : option (WorkGroup Memory * list (Z * AsyncCopy)) :=
  let '(wg, log) := s in
  match op with
  | OpAsyncCopy copy event =>
      let '(h, wg') := async_copy copy event wg in
      Some (wg', if allocates copy wg then log ++ [(h, copy)] else log)
  | OpWaitEvent event => wg' ← wait_event event wg; Some (wg', log)
  | OpGroupCopy => Some (group_copy wg, log)
  end.

(** A history, up to its end or to the operation that aborts. *)
Fixpoint replay (ops : list RegistryOp) (s : WorkGroup Memory * list (Z * AsyncCopy))
  : WorkGroup Memory * list (Z * AsyncCopy) :=
  match ops with
  | [] => s
  | op :: rest =>
      match apply_op op s with
      | Some s' => replay rest s'
      | None => s
      end
  end.

End History.

(** ** Vocabulary of the properties *)

(** The five-field equality of descriptors. *)
Definition same_fields (a b : AsyncCopy) : Prop :=
  instruction a = instruction b ∧ type a = type b ∧ dest a = dest b ∧
  src a = src b ∧ size a = size b.

(** The handle [h] holds a descriptor equal to [copy]. *)
Definition holds (pending : gmap Z (list AsyncCopy)) (copy : AsyncCopy)
    (h : Z) : Prop :=
  ∃ copies c, pending !! h = Some copies ∧ c ∈ copies ∧ same_fields c copy.

(** One descriptor of the group copy in the words of the design document:
    with direction GLOBAL_TO_LOCAL the destination is local memory and the
    source global memory, otherwise the destination is global and the source
    local; [size] bytes are loaded from the source at [src] and stored to the
    destination at [dest]. The state is (local memory, global memory). *)
Definition copy_spec {Memory : Type} `{!MemoryOps Memory}
    (mem : Memory * Memory) (d : AsyncCopy) : Memory * Memory :=
  match type d with
  | GLOBAL_TO_LOCAL => (store mem.1 (load mem.2 (src d) (size d)) (dest d) (size d), mem.2)
  | LOCAL_TO_GLOBAL => (mem.1, store mem.2 (load mem.1 (src d) (size d)) (dest d) (size d))
  end.

(** The descriptors a group copy executes, in execution order: handle after
    handle, and under each handle in registration order. *)
Definition descriptors_of (pending : gmap Z (list AsyncCopy)) (handles : list Z)
  : list AsyncCopy :=
  mjoin ((λ h, default [] (pending !! h)) <$> handles).


(** The tallies after an item left its run in state [s]. *)
Definition tally (s : State) (t : Tallies) : Tallies :=
  match s with
  | BARRIER => mkTallies (S (numBarriers t)) (numWaitEvents t) (numFinished t)
  | WAIT_EVENT => mkTallies (numBarriers t) (S (numWaitEvents t)) (numFinished t)
  | FINISHED => mkTallies (numBarriers t) (numWaitEvents t) (S (numFinished t))
  | READY => t
  end.

(** The trace lines written when an item left its run in state [s]. *)
Definition exit_lines (s : State) : list out :=
  match s with
  | BARRIER => [Sep; Endl; Str "Barrier reached."; Endl]
  | WAIT_EVENT => [Sep; Endl; Str "Wait for events reached."; Endl]
  | FINISHED => [Sep; Endl; Str "Kernel completed."; Endl]
  | READY => []
  end.

Section Stepped.
Context {Memory Kernel WorkItem : Type} `{!WorkItemOps Memory Kernel WorkItem}.

(** [stepped oi n w wg w' wg']: the READY item [w] is stepped [n] times, it
    is READY after every step but the last, and the last step leaves the
    item [w'], not READY, and the group [wg']. *)
Inductive stepped (outputInstructions : bool)
  : nat → WorkItem → WorkGroup Memory → WorkItem → WorkGroup Memory → Prop :=
  | stepped_last w wg w' wg' :
      getState w = READY →
      step outputInstructions w wg = Some (w', wg') →
      getState w' ≠ READY →
      stepped outputInstructions 1 w wg w' wg'
  | stepped_more n w wg w1 wg1 w' wg' :
      getState w = READY →
      step outputInstructions w wg = Some (w1, wg1) →
      getState w1 = READY →
      stepped outputInstructions n w1 wg1 w' wg' →
      stepped outputInstructions (S n) w wg w' wg'.

End Stepped.

Section ConstructionInvariant.
Context {Memory Kernel WorkItem : Type} `{!WorkItemOps Memory Kernel WorkItem}.


End ConstructionInvariant.

Section AfterVisit.
Context {Memory Kernel WorkItem : Type} `{!WorkItemOps Memory Kernel WorkItem}.

(** The tallies and the machine after the visit of item [i], which was [w]
    and READY, ran it to the item [w'] and the group [wg']. *)
Definition after_visit (outputInstructions : bool) (i : nat) (w w' : WorkItem)
    (wg' : WorkGroup Memory) (s : Tallies * Machine Memory WorkItem)
  : Tallies * Machine Memory WorkItem :=
  (tally (getState w') s.1,
   emit_if outputInstructions (exit_lines (getState w'))
     (mkMachine wg' (m_totalWorkItems s.2) (<[i := w']> (m_workItems s.2))
        (cout (emit_if outputInstructions (header w) s.2)))).

End AfterVisit.

(** No line of the log is one of the two divergence reports. *)
Definition benign (log : list out) : Prop :=
  Forall (λ o, o ≠ Str "Barrier divergence detected." ∧
               o ≠ Str "Wait for events divergence detected.") log.

Section PassInvariant.
Context {Memory Kernel WorkItem : Type} `{!WorkItemOps Memory Kernel WorkItem}.

(** How many items of the list are in state [s]. *)
Definition count_state (s : State) (items : list WorkItem) : nat :=
  length (filter (λ w, getState w = s) items).

Definition all_in_state (s : State) (items : list WorkItem) : Prop :=
  Forall (λ w, getState w = s) items.

(** The array is as long as [m_totalWorkItems] says. *)
Definition well_formed (m : Machine Memory WorkItem) : Prop :=
  length (m_workItems m) = m_totalWorkItems m.

(** Invariant of the [for] loop of a pass that started with [finished] and
    the machine [m0], before the visit of item [i]: the items from [i] on are
    untouched, no item below [i] is READY, the tallies of the pass are
    bounded by the number of items below [i] in the state they count, the
    three tallies together grew by one for each item below [i] that was
    READY when the pass started, and the output grew by lines that are not
    divergence reports. *)
Definition pass_inv (finished : nat) (m0 : Machine Memory WorkItem) (i : nat)
    (s : Tallies * Machine Memory WorkItem) : Prop :=
  m_totalWorkItems s.2 = m_totalWorkItems m0 ∧
  length (m_workItems s.2) = length (m_workItems m0) ∧
  drop i (m_workItems s.2) = drop i (m_workItems m0) ∧
  Forall (λ w, getState w ≠ READY) (take i (m_workItems s.2)) ∧
  (numBarriers s.1 ≤ count_state BARRIER (take i (m_workItems s.2)))%nat ∧
  (numWaitEvents s.1 ≤ count_state WAIT_EVENT (take i (m_workItems s.2)))%nat ∧
  (finished ≤ numFinished s.1)%nat ∧
  (numFinished s.1 ≤ finished + count_state FINISHED (take i (m_workItems s.2)))%nat ∧
  (numBarriers s.1 + numWaitEvents s.1 + numFinished s.1
     = finished + count_state READY (take i (m_workItems m0)))%nat ∧
  ∃ log, cout s.2 = cout m0 ++ log ∧ benign log.

End PassInvariant.

(** The report an exit of [run] writes just before it. *)
Definition report (e : Exit) : list out :=
  match e with
  | Completed => []
  | BarrierDivergence => msg_barrier_divergence
  | WaitEventDivergence => msg_wait_divergence
  end.

Section Release.
Context {Memory Kernel WorkItem : Type} `{!WorkItemOps Memory Kernel WorkItem}.

(** The machine after the release of all items (lines 209-216 and 258-265),
    [wg] being the group at that point and [line] the trace line. *)
Definition released (oi : bool) (line : string) (wg : WorkGroup Memory)
    (m : Machine Memory WorkItem) : Machine Memory WorkItem :=
  emit_if oi [Str line; Endl]
    (mkMachine wg (m_totalWorkItems m) (clearBarrier <$> m_workItems m) (cout m)).

End Release.

Section Progress.
Context {Memory Kernel WorkItem : Type} `{!WorkItemOps Memory Kernel WorkItem}.



(** A kernel whose every step brings its item closer to the end: each step
    decreases the measure [μ], and the release of an item does not increase
    it. *)
Definition always_progresses (P : WorkItem → Prop) (μ : WorkItem → nat) : Prop :=
  (∀ oi w (wg : WorkGroup Memory), P w → getState w = READY →
     ∃ w' wg', step oi w wg = Some (w', wg') ∧ P w' ∧ (μ w' < μ w)%nat) ∧
  (∀ w, P w → P (clearBarrier w) ∧ (μ (clearBarrier w) ≤ μ w)%nat).

End Progress.

Section ProgressInGroup.
Context {Memory Kernel WorkItem : Type}.
Context `{!MemoryOps Memory} `{!WorkItemOps Memory Kernel WorkItem}.

(** A kernel whose every step, in the states a run goes through, succeeds
    and brings its item closer to the end. [G] tells the states of group and
    items the run goes through: a step of a READY item is possible in such a
    state, leads to such a state and decreases the measure [μ] of the item;
    the release of all items at a barrier, and the group copy followed by
    the release of all items at an event wait, lead to such a state; and the
    release of an item does not increase its measure. *)
Definition progresses (G : WorkGroup Memory → list WorkItem → Prop)
    (μ : WorkItem → nat) : Prop :=
  (∀ oi wg items i w, G wg items → items !! i = Some w → getState w = READY →
     ∃ w' wg', step oi w wg = Some (w', wg') ∧ G wg' (<[i := w']> items) ∧
               (μ w' < μ w)%nat) ∧
  (∀ wg items, G wg items → all_in_state BARRIER items →
     G wg (clearBarrier <$> items)) ∧
  (∀ wg items, G wg items → all_in_state WAIT_EVENT items →
     G (group_copy wg) (clearBarrier <$> items)) ∧
  (∀ wg items w, G wg items → w ∈ items → (μ (clearBarrier w) ≤ μ w)%nat).

End ProgressInGroup.

(** ** Example groups *)

(** A copy of four bytes from global address 16 to local address 32. *)
Definition example_copy : AsyncCopy := mkAsyncCopy 4096 GLOBAL_TO_LOCAL 32 16 4.

(** The same request with another destination. *)
Definition other_copy : AsyncCopy := mkAsyncCopy 4096 GLOBAL_TO_LOCAL 64 16 4.

Definition example_global : ByteMem :=
  <[16 := Byte.x0a]> (<[17 := Byte.x0b]> (<[18 := Byte.x0c]> (<[19 := Byte.x0d]> ∅))).

(** A one-dimensional group of [n] items, as the constructor leaves it. *)
Definition script_group (n : nat) : WorkGroup ByteMem :=
  mkWorkGroup 1 (n, 1, 1)%nat (0, 0, 0)%nat (n, 1, 1)%nat ∅ example_global 1 ∅ ∅.

(** The machine of a one-dimensional group whose items run the given
    scripts, as the constructor leaves it. *)
Definition script_machine (scripts : list (list Instr))
  : Machine ByteMem ScriptItem :=
  mkMachine (script_group (length scripts)) (length scripts)
    (imap (λ i script, mkScriptItem READY script 0 (i, 0, 0)%nat) scripts) [].

(** The kernel that runs [script] on every item. *)
Definition uniform_kernel (script : list Instr) : ScriptKernel :=
  mkScriptKernel ∅ (λ _ _ _, script).






(** A group whose counter is at its largest value while handle 1 is still
    pending. *)
Definition wrap_copy (n : Z) : AsyncCopy := mkAsyncCopy 4096 GLOBAL_TO_LOCAL n 0 0.

Definition wrap_group (next : Z) : WorkGroup ByteMem :=
  mkWorkGroup 1 (1, 1, 1)%nat (0, 0, 0)%nat (1, 1, 1)%nat ∅ ∅ next
    {[ 1 := [wrap_copy 1] ]} ∅.

Section Reachable.
Context {Memory : Type} `{!MemoryOps Memory}.

(** The groups a history of registry operations leads to from [wg0]. *)
Inductive reachable_from (wg0 : WorkGroup Memory) : WorkGroup Memory → Prop :=
  | reachable_refl : reachable_from wg0 wg0
  | reachable_step wg op wg' log log' :
      reachable_from wg0 wg →
      apply_op op (wg, log) = Some (wg', log') →
      reachable_from wg0 wg'.

End Reachable.

(** A group with one request pending under handle 1, and the same group
    once the handle is awaited. *)
Definition pending_group : WorkGroup ByteMem :=
  mkWorkGroup 1 (1, 1, 1)%nat (0, 0, 0)%nat (1, 1, 1)%nat ∅ example_global 2
    {[ 1 := [example_copy] ]} ∅.

Definition awaited_group : WorkGroup ByteMem :=
  mkWorkGroup 1 (1, 1, 1)%nat (0, 0, 0)%nat (1, 1, 1)%nat ∅ example_global 2
    {[ 1 := [example_copy] ]} {[ 1 ]}.

(** The group two allocations after [wrap_group (2^64 - 1)]: the counter
    has wrapped and is at 1 again, while handle 1 is still pending. *)
Definition stale_group : WorkGroup ByteMem :=
  mkWorkGroup 1 (1, 1, 1)%nat (0, 0, 0)%nat (1, 1, 1)%nat ∅ ∅ 1
    (<[0 := [wrap_copy 6]]>
       (<[UINT64_MOD - 1 := [wrap_copy 5]]> {[ 1 := [wrap_copy 1] ]})) ∅.


(** The group [wrap_group] comes from, as the constructor leaves it. *)
Definition wrap_init : WorkGroup ByteMem :=
  mkWorkGroup 1 (1, 1, 1)%nat (0, 0, 0)%nat (1, 1, 1)%nat ∅ ∅ 1 ∅ ∅.

(** Modelled from the spec: a work-item whose kernel is a barrier in an
    endless loop. Every step takes it from READY to the barrier, every
    release back to READY. *)
Record LoopItem := mkLoopItem { li_state : State }.

Definition LoopItem_step (outputInstructions : bool) (w : LoopItem)
    (wg : WorkGroup ByteMem) : option (LoopItem * WorkGroup ByteMem) :=
  Some (mkLoopItem BARRIER, wg).

Definition LoopItem_clearBarrier (w : LoopItem) : LoopItem :=
  match li_state w with
  | BARRIER | WAIT_EVENT => mkLoopItem READY
  | _ => w
  end.

Inductive LoopKernel := mkLoopKernel.

#[global] Instance LoopKernel_ops : KernelOps ByteMem LoopKernel := {|
  getLocalMemory _ := ∅
|}.

#[global] Program Instance LoopItem_ops
  : WorkItemOps ByteMem LoopKernel LoopItem := {|
  WorkItem_new _ _ _ _ _ := mkLoopItem READY;
  getState := li_state;
  getGlobalID _ := (0, 0, 0)%nat;
  step := LoopItem_step;
  clearBarrier := LoopItem_clearBarrier
|}.
Next Obligation. intros w Hw. unfold LoopItem_clearBarrier. by rewrite Hw. Qed.
Next Obligation. intros w Hw. unfold LoopItem_clearBarrier. by rewrite Hw. Qed.

(** The machine of a group with that one item. *)
Definition loop_machine : Machine ByteMem LoopItem :=
  mkMachine (script_group 1) 1 [mkLoopItem READY] [].

(** The machine of a group whose one item has finished. *)
Definition finished_machine : Machine ByteMem ScriptItem :=
  mkMachine (script_group 1) 1 [mkScriptItem FINISHED [] 0 (0, 0, 0)%nat] [].

(** ** Vocabulary of the further properties *)

Section RegistryInvariant.
Context {Memory : Type}.

(** What the registry operations keep true of a group: the counter is at
    least 1, every pending handle holds one descriptor and lies between 1
    and the counter, no two pending handles hold the same descriptor, and
    only pending handles are awaited. *)
Definition registry_inv (wg : WorkGroup Memory) : Prop :=
  1 ≤ m_nextEvent wg ∧
  (∀ h copies, m_pendingEvents wg !! h = Some copies → ∃ c, copies = [c]) ∧
  (∀ h, is_Some (m_pendingEvents wg !! h) → 1 ≤ h < m_nextEvent wg) ∧
  (∀ h1 h2 c, m_pendingEvents wg !! h1 = Some [c] →
              m_pendingEvents wg !! h2 = Some [c] → h1 = h2) ∧
  m_waitEvents wg ⊆ dom (m_pendingEvents wg).

End RegistryInvariant.

Section TallyInvariant.
Context {Memory Kernel WorkItem : Type} `{!WorkItemOps Memory Kernel WorkItem}.

(** Invariant of the [for] loop of a pass, before the visit of item [i]:
    the items from [i] on are untouched, an item below [i] that was not
    READY when the pass started is untouched, and each tally has grown by
    the growth, among the items below [i], of the number of items in the
    state it counts. *)
Definition tally_inv (finished : nat) (m0 : Machine Memory WorkItem) (i : nat)
    (s : Tallies * Machine Memory WorkItem) : Prop :=
  m_totalWorkItems s.2 = m_totalWorkItems m0 ∧
  length (m_workItems s.2) = length (m_workItems m0) ∧
  drop i (m_workItems s.2) = drop i (m_workItems m0) ∧
  (∀ j w, (j < i)%nat → m_workItems m0 !! j = Some w → getState w ≠ READY →
          m_workItems s.2 !! j = Some w) ∧
  (numBarriers s.1 + count_state BARRIER (take i (m_workItems m0))
     = count_state BARRIER (take i (m_workItems s.2)))%nat ∧
  (numWaitEvents s.1 + count_state WAIT_EVENT (take i (m_workItems m0))
     = count_state WAIT_EVENT (take i (m_workItems s.2)))%nat ∧
  (numFinished s.1 + count_state FINISHED (take i (m_workItems m0))
     = finished + count_state FINISHED (take i (m_workItems s.2)))%nat.

End TallyInvariant.

(** ** The accessors (lines 113-136) *)

Section Accessors.
Context {Memory : Type}.


End Accessors.

(** ** The dumps (lines 95-111) *)

(** What the dumps need of their collaborators, whose code is elsewhere:
    [Memory::getTotalAllocated], and what [Memory::dump] and
    [WorkItem::dumpPrivateMemory] write to standard output. *)
Class DumpOps (Memory WorkItem : Type) := {
  getTotalAllocated : Memory → nat;
  Memory_dump : Memory → list out;
  WorkItem_dumpPrivateMemory : WorkItem → list out
}.

Section Dumps.
Context {Memory WorkItem : Type} `{!DumpOps Memory WorkItem}.

(** [WorkGroup::dumpLocalMemory] (lines 95-102). *)
Definition dumpLocalMemory (m : Machine Memory WorkItem) : Machine Memory WorkItem :=
  if decide (0 < getTotalAllocated (m_localMemory (group m)))%nat then
    emit (Memory_dump (m_localMemory (group m)))
      (emit [Sep; Endl; Str "Local Memory:"] m)
  else m.

(** [WorkGroup::dumpPrivateMemory] (lines 104-111). *)
Definition dumpPrivateMemory (m : Machine Memory WorkItem)
  : outcome (Machine Memory WorkItem) :=
  for_loop (m_totalWorkItems m) 0%nat (λ i m,
    match m_workItems m !! i with
    | None => Aborts
    | Some workItem =>
        Returns (emit (WorkItem_dumpPrivateMemory workItem) (emit [Sep] m))
    end) m.

(** What [dumpPrivateMemory] writes for a list of items. *)
Definition private_dump (items : list WorkItem) : list out :=
  mjoin ((λ w, Sep :: WorkItem_dumpPrivateMemory w) <$> items).

End Dumps.

(** An example of the collaborators of the dumps, for the byte memory and
    the scripted items: the bytes held count as allocated, the dump of a
    memory writes their number, the dump of an item the length of its
    script. *)
#[global] Instance Script_dump_ops : DumpOps ByteMem ScriptItem := {|
  getTotalAllocated mem := length (map_to_list mem);
  Memory_dump mem := [Num (length (map_to_list mem)); Endl];
  WorkItem_dumpPrivateMemory w := [Num (length (si_script w)); Endl]
|}.

(** * Properties *)

(** ** Containers in iteration order *)

Lemma ascending_elem_of (s : gset Z) (x : Z) : x ∈ ascending s ↔ x ∈ s.
Proof.
  unfold ascending. rewrite merge_sort_Permutation. apply elem_of_elements.
Qed.

Lemma ascending_NoDup (s : gset Z) : NoDup (ascending s).
Proof.
  unfold ascending. rewrite merge_sort_Permutation. apply NoDup_elements.
Qed.

Lemma ascending_sorted (s : gset Z) : StronglySorted Z.le (ascending s).
Proof. unfold ascending. apply StronglySorted_merge_sort; apply _. Qed.

Lemma ascending_singleton (k : Z) : ascending {[ k ]} = [k].
Proof. unfold ascending. by rewrite elements_singleton. Qed.

Lemma filter_absent (l : list Z) (x : Z) :
  x ∉ l → filter (λ y, y = x) l = [].
Proof.
  induction l as [|y l IH]; intros Hx; [done|].
  apply not_elem_of_cons in Hx as [Hne Hx].
  rewrite filter_cons_False by congruence. by apply IH.
Qed.

Lemma NoDup_one_entry (l : list Z) (x : Z) :
  NoDup l → x ∈ l → length (filter (λ y, y = x) l) = 1%nat.
Proof.
  induction 1 as [|y l Hy Hl IH]; intros Hx.
  - by apply elem_of_nil in Hx.
  - destruct (decide (y = x)) as [->|Hne].
    + rewrite filter_cons_True by done. simpl. by rewrite filter_absent.
    + rewrite filter_cons_False by done.
      apply elem_of_cons in Hx as [->|Hx]; [done|]. by apply IH.
Qed.

(** ** Descriptor equality and the scans of [async_copy] *)

Lemma same_fields_eq (a b : AsyncCopy) : same_fields a b ↔ a = b.
Proof.
  split; [|by intros ->].
  destruct a, b. unfold same_fields. simpl. intros (-> & -> & -> & -> & ->). done.
Qed.

Lemma AsyncCopy_eqb_same_fields (a b : AsyncCopy) :
  AsyncCopy_eqb a b = true ↔ same_fields a b.
Proof.
  unfold AsyncCopy_eqb, same_fields.
  rewrite !andb_true_iff, !Z.eqb_eq, bool_decide_eq_true. tauto.
Qed.

Lemma scan_copies_true (copies : list AsyncCopy) (copy : AsyncCopy) :
  scan_copies copies copy = true ↔ ∃ c, c ∈ copies ∧ same_fields c copy.
Proof.
  induction copies as [|c rest IH]; simpl.
  - split; [done|]. intros (c & Hc & _). by apply elem_of_nil in Hc.
  - destruct (AsyncCopy_eqb c copy) eqn:E.
    + split; [|done]. intros _. exists c. split; [left|].
      by apply AsyncCopy_eqb_same_fields.
    + rewrite IH. split.
      * intros (c' & Hc' & Hs). exists c'. split; [by right|done].
      * intros (c' & Hc' & Hs). apply elem_of_cons in Hc' as [->|Hc'].
        -- apply AsyncCopy_eqb_same_fields in Hs. congruence.
        -- by exists c'.
Qed.

Section ScanEvents.
Context (pending : gmap Z (list AsyncCopy)) (copy : AsyncCopy).
Local Abbreviation holds := (holds pending copy).

Lemma scan_copies_holds (h : Z) :
  scan_copies (default [] (pending !! h)) copy = true ↔ holds h.
Proof.
  rewrite scan_copies_true. unfold holds. split.
  - intros (c & Hc & Hs). destruct (pending !! h) as [copies|] eqn:E; simpl in Hc.
    + by exists copies, c.
    + by apply elem_of_nil in Hc.
  - intros (copies & c & -> & Hc & Hs). by exists c.
Qed.

Lemma scan_events_Some (handles : list Z) (h : Z) :
  scan_events pending handles copy = Some h → h ∈ handles ∧ holds h.
Proof.
  induction handles as [|k rest IH]; simpl; [done|].
  destruct (scan_copies (default [] (pending !! k)) copy) eqn:E.
  - intros [= <-]. split; [left|]. by apply scan_copies_holds.
  - intros H. destruct (IH H) as [? ?]. split; [by right|done].
Qed.

Lemma scan_events_None (handles : list Z) :
  scan_events pending handles copy = None ↔ ∀ h, h ∈ handles → ¬ holds h.
Proof.
  induction handles as [|k rest IH]; simpl.
  - split; [|done]. intros _ h Hh. by apply elem_of_nil in Hh.
  - destruct (scan_copies (default [] (pending !! k)) copy) eqn:E.
    + split; [done|]. intros H. exfalso. apply (H k); [left|].
      by apply scan_copies_holds.
    + rewrite IH. split.
      * intros H h Hh. apply elem_of_cons in Hh as [->|Hh]; [|by apply H].
        rewrite <- scan_copies_holds. congruence.
      * intros H h Hh. apply H. by right.
Qed.

(** Over handles in ascending order the scan returns the least handle that
    holds an equal descriptor. *)
Lemma scan_events_least (handles : list Z) (h : Z) :
  StronglySorted Z.le handles → h ∈ handles → holds h →
  ∃ h', scan_events pending handles copy = Some h' ∧ h' ≤ h.
Proof.
  induction 1 as [|k rest Hs IH Hall]; intros Hin Hh.
  - by apply elem_of_nil in Hin.
  - simpl. destruct (scan_copies (default [] (pending !! k)) copy) eqn:E.
    + exists k. split; [done|]. apply elem_of_cons in Hin as [->|Hin]; [lia|].
      rewrite Forall_forall in Hall. by apply Hall.
    + apply elem_of_cons in Hin as [->|Hin]; [|by apply IH].
      apply scan_copies_holds in Hh. congruence.
Qed.

End ScanEvents.

(** ** The event registry *)

Section RegistryFacts.
Context {Memory : Type} `{!MemoryOps Memory}.
Implicit Types (wg : WorkGroup Memory) (copy : AsyncCopy).

Lemma async_copy_found wg copy event h :
  scan_events (m_pendingEvents wg) (ascending (dom (m_pendingEvents wg))) copy
    = Some h →
  async_copy copy event wg = (h, wg).
Proof. unfold async_copy. by intros ->. Qed.

Lemma async_copy_fresh wg copy event :
  scan_events (m_pendingEvents wg) (ascending (dom (m_pendingEvents wg))) copy
    = None →
  async_copy copy event wg =
    (m_nextEvent wg,
     set_registry (uint64_succ (m_nextEvent wg))
       (<[m_nextEvent wg := [copy]]> (m_pendingEvents wg)) (m_waitEvents wg) wg).
Proof.
  unfold async_copy. intros ->.
  by rewrite lookup_insert_eq, insert_insert_eq.
Qed.

Lemma holds_in_dom wg copy h :
  holds (m_pendingEvents wg) copy h → h ∈ ascending (dom (m_pendingEvents wg)).
Proof.
  intros (copies & c & Hl & _). apply ascending_elem_of, elem_of_dom. eauto.
Qed.

(** C3, as the code has it. Event dedup: a request whose descriptor equals,
    in all five fields, one stored under a pending handle [h] returns a
    handle that stores such a descriptor and leaves the group as it was; the
    handle is the least one that stores an equal descriptor, hence [h]
    itself when no other handle does. A request whose descriptor differs in
    some field from every pending descriptor returns the counter value as
    the handle, advances the counter by one modulo 2^64, leaves the list
    [[copy]] under the handle and touches no other handle, nor the awaited
    set, nor a memory; the handle is a fresh one, not pending before,
    whenever the pending handles are below the counter, as they are from
    construction until the counter wraps. *)
Theorem async_copy_dedup wg copy event :
  (∀ h, holds (m_pendingEvents wg) copy h →
     ∃ h', async_copy copy event wg = (h', wg) ∧
           holds (m_pendingEvents wg) copy h' ∧ h' ≤ h ∧
           ((∀ k, holds (m_pendingEvents wg) copy k → k = h) → h' = h)) ∧
  ((∀ h copies c, m_pendingEvents wg !! h = Some copies → c ∈ copies →
      ¬ same_fields c copy) →
   let h := (async_copy copy event wg).1 in
   let wg' := (async_copy copy event wg).2 in
   h = m_nextEvent wg ∧
   m_nextEvent wg' = uint64_succ (m_nextEvent wg) ∧
   m_pendingEvents wg' !! h = Some [copy] ∧
   (∀ k, k ≠ h → m_pendingEvents wg' !! k = m_pendingEvents wg !! k) ∧
   m_waitEvents wg' = m_waitEvents wg ∧
   m_localMemory wg' = m_localMemory wg ∧
   m_globalMemory wg' = m_globalMemory wg ∧
   ((∀ k, is_Some (m_pendingEvents wg !! k) → k < m_nextEvent wg) →
    m_pendingEvents wg !! h = None)).
Proof.
  split.
  - intros h Hh.
    destruct (scan_events_least (m_pendingEvents wg) copy
                (ascending (dom (m_pendingEvents wg))) h) as (h' & Hscan & Hle);
      [apply ascending_sorted | by apply (holds_in_dom wg copy) | done |].
    exists h'. split; [by apply async_copy_found|].
    apply scan_events_Some in Hscan as [_ Hh'].
    split; [done|]. split; [done|]. intros Huniq. by apply Huniq.
  - intros Hdiff. cbv zeta.
    rewrite (async_copy_fresh wg copy event).
    + simpl. split; [done|]. split; [done|].
      split; [by rewrite lookup_insert_eq|].
      split; [intros k Hk; by rewrite lookup_insert_ne|].
      split; [done|]. split; [done|]. split; [done|].
      intros Hbelow. apply eq_None_not_Some. intros Hsome.
      specialize (Hbelow _ Hsome). lia.
    + apply scan_events_None.
      intros h _ (copies & c & Hl & Hc & Hs). by apply (Hdiff h copies c).
Qed.

(** The same request made twice, nothing fulfilled in between, gets the same
    handle twice, and the second call changes nothing. *)
Lemma async_copy_twice wg copy (event1 event2 : Z) :
  async_copy copy event2 (async_copy copy event1 wg).2
    = async_copy copy event1 wg.
Proof.
  destruct (scan_events (m_pendingEvents wg)
              (ascending (dom (m_pendingEvents wg))) copy) as [h|] eqn:E.
  - rewrite (async_copy_found wg copy event1 h E). simpl.
    by apply async_copy_found.
  - rewrite (async_copy_fresh wg copy event1 E). simpl.
    set (wg1 := set_registry _ _ _ wg).
    assert (Hn : holds (m_pendingEvents wg1) copy (m_nextEvent wg)).
    { exists [copy], copy. simpl. rewrite lookup_insert_eq.
      split; [done|]. split; [left|]. by apply same_fields_eq. }
    destruct (scan_events_least (m_pendingEvents wg1) copy
                (ascending (dom (m_pendingEvents wg1))) (m_nextEvent wg))
      as (h' & Hscan & _);
      [apply ascending_sorted | by apply (holds_in_dom wg1 copy) | done |].
    rewrite (async_copy_found wg1 copy event2 h' Hscan). f_equal.
    destruct (decide (h' = m_nextEvent wg)) as [->|Hne]; [done|].
    apply scan_events_Some in Hscan as [_ (copies & c & Hl & Hc & Hs)].
    simpl in Hl. rewrite lookup_insert_ne in Hl by done.
    assert (Hold : holds (m_pendingEvents wg) copy h') by (by exists copies, c).
    pose proof (proj1 (scan_events_None _ _ _) E h'
                  (holds_in_dom wg copy h' Hold)) as Hnot.
    by destruct Hnot.
Qed.

(** What a request leaves behind, whether it allocated or not. *)
Lemma async_copy_post wg copy event :
  let h := (async_copy copy event wg).1 in
  let wg' := (async_copy copy event wg).2 in
  holds (m_pendingEvents wg') copy h ∧
  (∀ k, is_Some (m_pendingEvents wg !! k) → is_Some (m_pendingEvents wg' !! k)) ∧
  (∀ k, k ≠ m_nextEvent wg → m_pendingEvents wg' !! k = m_pendingEvents wg !! k) ∧
  m_waitEvents wg' = m_waitEvents wg ∧
  m_localMemory wg' = m_localMemory wg ∧
  m_globalMemory wg' = m_globalMemory wg.
Proof.
  destruct (scan_events (m_pendingEvents wg)
              (ascending (dom (m_pendingEvents wg))) copy) as [h|] eqn:E.
  - rewrite (async_copy_found wg copy event h E). simpl.
    apply scan_events_Some in E as [_ Hh]. done.
  - rewrite (async_copy_fresh wg copy event E). simpl.
    split; [|split; [|split]].
    + exists [copy], copy. rewrite lookup_insert_eq.
      split; [done|]. split; [left|]. by apply same_fields_eq.
    + intros k Hk. destruct (decide (k = m_nextEvent wg)) as [->|Hne].
      * rewrite lookup_insert_eq. by eexists.
      * by rewrite lookup_insert_ne.
    + intros k Hne. by rewrite lookup_insert_ne.
    + done.
Qed.

(** C10. The second parameter of [async_copy] has no effect: the handle
    returned and the group after the call are the same for any two values of
    it. *)
Theorem async_copy_event_irrelevant wg copy (event1 event2 : Z) :
  async_copy copy event1 wg = async_copy copy event2 wg.
Proof. unfold async_copy. by destruct (scan_events _ _ _). Qed.

(** C5. [wait_event]: with the handle absent from the pending registry the
    assertion fails and no group state results; with the handle present the
    call adds it to [m_waitEvents] and changes nothing else, waiting for it
    again leaves the group as it is, and the set holds the handle once. *)
Theorem wait_event_contract wg (event : Z) :
  (m_pendingEvents wg !! event = None → wait_event event wg = None) ∧
  (is_Some (m_pendingEvents wg !! event) →
   ∃ wg', wait_event event wg = Some wg' ∧
          wg' = set_registry (m_nextEvent wg) (m_pendingEvents wg)
                  ({[event]} ∪ m_waitEvents wg) wg ∧
          wait_event event wg' = Some wg' ∧
          length (filter (λ h, h = event) (ascending (m_waitEvents wg'))) = 1%nat).
Proof.
  unfold wait_event. split.
  - intros Hnone. rewrite decide_False; [done|]. rewrite Hnone. by intros [? ?].
  - intros Hsome. rewrite decide_True by done. eexists. split; [done|].
    split; [done|]. simpl. split.
    + rewrite decide_True by done. unfold set_registry. simpl.
      do 2 f_equal. by rewrite (assoc_L (∪)), (idemp_L (∪)).
    + apply NoDup_one_entry; [apply ascending_NoDup|].
      apply ascending_elem_of. set_solver.
Qed.

End RegistryFacts.

(** ** The group copy *)

Section GroupCopyFacts.
Context {Memory : Type} `{!MemoryOps Memory}.
Implicit Types (wg : WorkGroup Memory) (mem : Memory * Memory).

Lemma perform_copy_spec mem d : perform_copy mem d = copy_spec mem d.
Proof.
  destruct mem as [l g]. unfold perform_copy, copy_spec. simpl.
  destruct (type d); by case_decide.
Qed.

Lemma copy_loop_foldl copies mem : copy_loop copies mem = foldl copy_spec mem copies.
Proof.
  revert mem. induction copies as [|d rest IH]; intros mem; simpl; [done|].
  by rewrite IH, perform_copy_spec.
Qed.

Lemma pending_at_spec (h : Z) (pending : gmap Z (list AsyncCopy)) :
  (pending_at h pending).1 = default [] (pending !! h) ∧
  delete h (pending_at h pending).2 = delete h pending.
Proof.
  unfold pending_at. destruct (pending !! h) eqn:E; simpl; [done|].
  split; [done|]. by rewrite delete_insert_eq.
Qed.

Lemma descriptors_of_delete (pending : gmap Z (list AsyncCopy)) (h : Z) handles :
  h ∉ handles →
  descriptors_of (delete h pending) handles = descriptors_of pending handles.
Proof.
  unfold descriptors_of. induction handles as [|k rest IH]; intros Hh; [done|].
  apply not_elem_of_cons in Hh as [Hne Hh]. simpl.
  rewrite lookup_delete_ne by done. f_equal. by apply IH.
Qed.

(** The loop over the handles, as long as no handle occurs twice. *)
Lemma event_loop_spec handles wg :
  NoDup handles →
  let wg' := event_loop handles wg in
  (m_localMemory wg', m_globalMemory wg') =
    foldl copy_spec (m_localMemory wg, m_globalMemory wg)
      (descriptors_of (m_pendingEvents wg) handles) ∧
  (∀ k, m_pendingEvents wg' !! k =
        if decide (k ∈ handles) then None else m_pendingEvents wg !! k) ∧
  m_waitEvents wg' = m_waitEvents wg ∧
  m_nextEvent wg' = m_nextEvent wg.
Proof.
  intros Hnd. revert wg. induction Hnd as [|h rest Hh Hnd IH]; intros wg.
  - simpl. split; [done|]. split; [|done]. intros k.
    destruct (decide (k ∈ [])) as [Hk|_]; [|done]. by apply elem_of_nil in Hk.
  - simpl. destruct (pending_at_spec h (m_pendingEvents wg)) as [Hc Hd].
    destruct (pending_at h (m_pendingEvents wg)) as [copies pending]. simpl in Hc, Hd.
    rewrite copy_loop_foldl.
    destruct (foldl copy_spec (m_localMemory wg, m_globalMemory wg) copies)
      as [l g] eqn:Hmem.
    rewrite Hd.
    match goal with |- context [event_loop rest ?w] => specialize (IH w) end.
    simpl in IH. destruct IH as (Hm & Hp & Hw & Hn).
    split; [|split; [|split]].
    + rewrite Hm, descriptors_of_delete by done.
      unfold descriptors_of. simpl. by rewrite foldl_app, <- Hc, Hmem.
    + intros k. rewrite Hp. destruct (decide (k = h)) as [->|Hne].
      * rewrite lookup_delete_eq. rewrite (decide_True (P := h ∈ h :: rest)) by left.
        by case_decide.
      * rewrite lookup_delete_ne by done.
        destruct (decide (k ∈ rest)) as [Hin|Hin].
        -- rewrite decide_True; [done|by right].
        -- rewrite decide_False; [done|]. by apply not_elem_of_cons.
    + done.
    + done.
Qed.

(** What the group copy does to the memories and to the registry. *)
Lemma group_copy_spec wg :
  let handles := ascending (m_waitEvents wg) in
  let wg' := group_copy wg in
  (StronglySorted Z.le handles ∧ NoDup handles ∧
   ∀ h, h ∈ handles ↔ h ∈ m_waitEvents wg) ∧
  (m_localMemory wg', m_globalMemory wg') =
    foldl copy_spec (m_localMemory wg, m_globalMemory wg)
      (descriptors_of (m_pendingEvents wg) handles) ∧
  (∀ h, m_pendingEvents wg' !! h =
        if decide (h ∈ m_waitEvents wg) then None else m_pendingEvents wg !! h) ∧
  (∀ h, h ∈ m_waitEvents wg → wait_event h wg' = None) ∧
  m_waitEvents wg' = ∅ ∧
  m_nextEvent wg' = m_nextEvent wg.
Proof.
  intros handles wg'.
  destruct (event_loop_spec handles wg (ascending_NoDup _)) as (Hm & Hp & Hw & Hn).
  assert (Hlookup : ∀ h, m_pendingEvents wg' !! h =
            if decide (h ∈ m_waitEvents wg) then None else m_pendingEvents wg !! h).
  { intros h. unfold wg', group_copy. simpl. rewrite Hp.
    destruct (decide (h ∈ m_waitEvents wg)) as [Hin|Hin].
    - rewrite decide_True; [done|]. by apply ascending_elem_of.
    - rewrite decide_False; [done|]. unfold handles. by rewrite ascending_elem_of. }
  split; [|split; [|split; [|split; [|split]]]].
  - split; [apply ascending_sorted|]. split; [apply ascending_NoDup|].
    intros h. apply ascending_elem_of.
  - exact Hm.
  - exact Hlookup.
  - intros h Hh. unfold wait_event. rewrite decide_False; [done|].
    rewrite Hlookup, decide_True by done. by intros [? ?].
  - done.
  - exact Hn.
Qed.


(** C4. Fulfillment: the group copy goes through the awaited handles in
    ascending order, each once, and executes the descriptors stored under
    them in registration order, each as the design document words it
    ([copy_spec]: memories chosen by direction, [size] bytes loaded at [src]
    and stored at [dest]); afterwards every awaited handle is gone from the
    pending registry, so that waiting for it fails, the other handles are
    kept, [m_waitEvents] is empty and the counter is unchanged. *)
Theorem group_copy_correct wg :
  let handles := ascending (m_waitEvents wg) in
  let wg' := group_copy wg in
  (StronglySorted Z.le handles ∧ NoDup handles ∧
   ∀ h, h ∈ handles ↔ h ∈ m_waitEvents wg) ∧
  (m_localMemory wg', m_globalMemory wg') =
    foldl copy_spec (m_localMemory wg, m_globalMemory wg)
      (descriptors_of (m_pendingEvents wg) handles) ∧
  (∀ h, m_pendingEvents wg' !! h =
        if decide (h ∈ m_waitEvents wg) then None else m_pendingEvents wg !! h) ∧
  (∀ h, h ∈ m_waitEvents wg → wait_event h wg' = None) ∧
  m_waitEvents wg' = ∅ ∧
  m_nextEvent wg' = m_nextEvent wg.
Proof. exact (group_copy_spec wg). Qed.

End GroupCopyFacts.

(** ** Loops *)

Section ForLoop.
Context {St : Type}.
Implicit Types (body : nat → St → outcome St) (s : St).



(** Invariant rule, for a loop known to return. *)
Lemma for_loop_returns (Inv : nat → St → Prop) n start body s s' :
  for_loop n start body s = Returns s' →
  Inv start s →
  (∀ i a b, (start ≤ i < start + n)%nat → Inv i a → body i a = Returns b →
            Inv (S i) b) →
  Inv (start + n)%nat s'.
Proof.
  revert start s. induction n as [|n IH]; intros start s Hrun Hinv Hbody.
  - simpl in Hrun. injection Hrun as <-. by rewrite Nat.add_0_r.
  - simpl in Hrun. destruct (body start s) as [a| |] eqn:E; try done. simpl in Hrun.
    replace (start + S n)%nat with (S start + n)%nat by lia.
    apply (IH (S start) a Hrun).
    + apply (Hbody start s a); [lia|done..].
    + intros i x y Hi. apply Hbody. lia.
Qed.

(** Invariant rule, for a loop whose body returns under the invariant. *)
Lemma for_loop_total (Inv : nat → St → Prop) n start body s :
  Inv start s →
  (∀ i a, (start ≤ i < start + n)%nat → Inv i a →
          ∃ b, body i a = Returns b ∧ Inv (S i) b) →
  ∃ s', for_loop n start body s = Returns s' ∧ Inv (start + n)%nat s'.
Proof.
  revert start s. induction n as [|n IH]; intros start s Hinv Hbody.
  - exists s. by rewrite Nat.add_0_r.
  - destruct (Hbody start s) as (a & Ha & Hinva); [lia|done|].
    destruct (IH (S start) a Hinva) as (s' & Hs' & Hinv').
    { intros i x Hi. apply Hbody. lia. }
    exists s'. simpl. rewrite Ha. simpl.
    by replace (start + S n)%nat with (S start + n)%nat by lia.
Qed.



End ForLoop.

(** ** Construction *)







Section ConstructionFacts.
Context {Memory Kernel WorkItem : Type}.
Context `{!MemoryOps Memory} `{!KernelOps Memory Kernel}
        `{!WorkItemOps Memory Kernel WorkItem}.
Implicit Types (wg : WorkGroup Memory) (slots : list (option WorkItem)).


(** Whatever the sizes, a group that comes out of the constructor has the
    identity it was given, a clone of the local memory of the kernel, the
    counter at 1, and nothing pending or awaited. *)
Lemma WorkGroup_new_group (kernel : Kernel) (globalMem : Memory)
    (workDim wgid_x wgid_y wgid_z : nat) (globalSize : nat * nat * nat)
    (gx gy gz : nat) (m : Machine Memory WorkItem) :
  WorkGroup_new kernel globalMem workDim wgid_x wgid_y wgid_z globalSize
    (gx, gy, gz) = Some m →
  group m = mkWorkGroup workDim globalSize (wgid_x, wgid_y, wgid_z)
              (gx, gy, gz) (clone (getLocalMemory kernel)) globalMem 1 ∅ ∅ ∧
  m_totalWorkItems m = size_mul (size_mul gx gy) gz ∧
  cout m = [].
Proof.
  unfold WorkGroup_new.
  destruct (construct_items _ kernel _) as [slots| |]; try done.
  destruct (mapM id slots) as [items|]; simpl; [|done].
  by intros [= <-].
Qed.



End ConstructionFacts.

(** ** Running one item *)

Section ItemFacts.
Context {Memory Kernel WorkItem : Type}.
Context `{!MemoryOps Memory} `{!KernelOps Memory Kernel}
        `{!WorkItemOps Memory Kernel WorkItem}.
Implicit Types (m : Machine Memory WorkItem) (t : Tallies)
               (wg : WorkGroup Memory) (w : WorkItem).

Lemma run_item_unfold fuel oi w wg :
  run_item fuel oi w wg =
    if decide (getState w = READY) then
      match fuel with
      | O => OutOfFuel
      | S fuel' =>
          match step oi w wg with
          | None => Aborts
          | Some (w', wg') => run_item fuel' oi w' wg'
          end
      end
    else Returns (w, wg).
Proof. by destruct fuel. Qed.

Lemma run_item_not_READY fuel oi w wg w' wg' :
  run_item fuel oi w wg = Returns (w', wg') → getState w' ≠ READY.
Proof.
  revert w wg. induction fuel as [|fuel IH]; intros w wg; rewrite run_item_unfold;
    case_decide as Hst; try done.
  - by intros [= <- <-].
  - destruct (step oi w wg) as [[w1 wg1]|]; [apply IH|done].
  - by intros [= <- <-].
Qed.



Lemma stepped_run_item oi n w wg w' wg' fuel :
  stepped oi n w wg w' wg' → (n ≤ fuel)%nat →
  run_item fuel oi w wg = Returns (w', wg').
Proof.
  intros Hsteps. revert fuel.
  induction Hsteps as [w wg w' wg' Hst Hstep Hst'
                      |n w wg w1 wg1 w' wg' Hst Hstep Hst1 Hsteps IH];
    intros fuel Hfuel; rewrite run_item_unfold, decide_True by done;
    (destruct fuel as [|fuel]; [lia|]); rewrite Hstep.
  - by rewrite run_item_unfold, decide_False.
  - apply IH. lia.
Qed.

Lemma group_emit_if (b : bool) (o : list out) m : group (emit_if b o m) = group m.
Proof. by destruct b. Qed.

Lemma items_emit_if (b : bool) (o : list out) m :
  m_workItems (emit_if b o m) = m_workItems m.
Proof. by destruct b. Qed.

Lemma total_emit_if (b : bool) (o : list out) m :
  m_totalWorkItems (emit_if b o m) = m_totalWorkItems m.
Proof. by destruct b. Qed.

Lemma cout_emit_if (b : bool) (o : list out) m :
  cout (emit_if b o m) = cout m ++ (if b then o else []).
Proof. destruct b; [done|]. simpl. by rewrite app_nil_r. Qed.

(** An item that is not READY is skipped: nothing changes. *)
Lemma visit_skip fuel oi i t m w :
  m_workItems m !! i = Some w → getState w ≠ READY →
  visit fuel oi i (t, m) = Returns (t, m).
Proof. intros Hw Hst. unfold visit. rewrite Hw. by rewrite decide_True. Qed.

(** A READY item is run; the visit returns what the run of the item leaves. *)
Lemma visit_ready fuel oi i t m w r :
  m_workItems m !! i = Some w → getState w = READY →
  visit fuel oi i (t, m) = Returns r ↔
  ∃ w' wg', run_item fuel oi w (group m) = Returns (w', wg') ∧
            r = after_visit oi i w w' wg' (t, m).
Proof.
  intros Hw Hst. unfold visit. rewrite Hw.
  rewrite decide_False by (intros Hne; by apply Hne).
  rewrite group_emit_if.
  destruct (run_item fuel oi w (group m)) as [[w' wg']| |] eqn:Hrun; simpl.
  - assert (Hres :
      match getState w' with
      | READY =>
          Returns (t, mkMachine wg' (m_totalWorkItems (emit_if oi (header w) m))
                       (<[i := w']> (m_workItems (emit_if oi (header w) m)))
                       (cout (emit_if oi (header w) m)))
      | BARRIER =>
          Returns (mkTallies (S (numBarriers t)) (numWaitEvents t) (numFinished t),
                   emit_if oi [Sep; Endl; Str "Barrier reached."; Endl]
                     (mkMachine wg' (m_totalWorkItems (emit_if oi (header w) m))
                        (<[i := w']> (m_workItems (emit_if oi (header w) m)))
                        (cout (emit_if oi (header w) m))))
      | WAIT_EVENT =>
          Returns (mkTallies (numBarriers t) (S (numWaitEvents t)) (numFinished t),
                   emit_if oi [Sep; Endl; Str "Wait for events reached."; Endl]
                     (mkMachine wg' (m_totalWorkItems (emit_if oi (header w) m))
                        (<[i := w']> (m_workItems (emit_if oi (header w) m)))
                        (cout (emit_if oi (header w) m))))
      | FINISHED =>
          Returns (mkTallies (numBarriers t) (numWaitEvents t) (S (numFinished t)),
                   emit_if oi [Sep; Endl; Str "Kernel completed."; Endl]
                     (mkMachine wg' (m_totalWorkItems (emit_if oi (header w) m))
                        (<[i := w']> (m_workItems (emit_if oi (header w) m)))
                        (cout (emit_if oi (header w) m))))
      end = Returns (after_visit oi i w w' wg' (t, m))).
    { unfold after_visit. simpl. rewrite total_emit_if, items_emit_if.
      apply run_item_not_READY in Hrun.
      by destruct (getState w'). }
    rewrite Hres. split.
    + intros [= <-]. by exists w', wg'.
    + intros (w2 & wg2 & [= <- <-] & ->). done.
  - split; [done|]. by intros (? & ? & ? & _).
  - split; [done|]. by intros (? & ? & ? & _).
Qed.

End ItemFacts.

(** ** Linear indexing *)


Section LinearIndexing.
Context {Memory Kernel WorkItem : Type}.
Context `{!MemoryOps Memory} `{!KernelOps Memory Kernel}
        `{!WorkItemOps Memory Kernel WorkItem}.


End LinearIndexing.

(** ** Counting items by state *)

Section Counting.
Context {Memory Kernel WorkItem : Type} `{!WorkItemOps Memory Kernel WorkItem}.
Implicit Types (items : list WorkItem) (w : WorkItem) (s : State).

Lemma count_state_app s items1 items2 :
  count_state s (items1 ++ items2) = (count_state s items1 + count_state s items2)%nat.
Proof. unfold count_state. by rewrite filter_app, length_app. Qed.

Lemma count_state_cons s w items :
  count_state s (w :: items) =
    ((if decide (getState w = s) then 1 else 0) + count_state s items)%nat.
Proof. unfold count_state. rewrite filter_cons. by case_decide. Qed.

Lemma count_state_one s w :
  count_state s [w] = if decide (getState w = s) then 1%nat else 0%nat.
Proof. rewrite count_state_cons. unfold count_state. simpl. lia. Qed.

Lemma count_state_le s items : (count_state s items ≤ length items)%nat.
Proof. apply length_filter. Qed.

Lemma count_state_all s items :
  count_state s items = length items → all_in_state s items.
Proof.
  unfold all_in_state. induction items as [|w items IH]; intros Hc; [constructor|].
  rewrite count_state_cons in Hc. simpl in Hc.
  pose proof (count_state_le s items). case_decide; [|lia].
  constructor; [done|]. apply IH. lia.
Qed.


Lemma count_state_partition items :
  (count_state READY items + count_state BARRIER items +
   count_state WAIT_EVENT items + count_state FINISHED items = length items)%nat.
Proof.
  induction items as [|w items IH]; [done|].
  rewrite !count_state_cons. simpl. destruct (getState w);
    repeat case_decide; try done; lia.
Qed.

Lemma count_state_none s items :
  Forall (λ w, getState w ≠ s) items → count_state s items = 0%nat.
Proof.
  induction 1 as [|w items Hw _ IH]; [done|].
  by rewrite count_state_cons, decide_False.
Qed.

End Counting.

(** ** One pass *)

Ltac solve_benign :=
  unfold benign; repeat (constructor; [split; discriminate|]); try constructor.

Ltac solve_well_formed :=
  unfold well_formed in *; simpl;
  repeat (rewrite ?items_emit_if, ?total_emit_if, ?length_fmap; simpl);
  first [done | lia].

Section PassFacts.
Context {Memory Kernel WorkItem : Type}.
Context `{!MemoryOps Memory} `{!KernelOps Memory Kernel}
        `{!WorkItemOps Memory Kernel WorkItem}.
Implicit Types (m : Machine Memory WorkItem) (t : Tallies)
               (wg : WorkGroup Memory) (w : WorkItem).

Lemma header_benign w : benign (header w).
Proof. unfold header. destruct (getGlobalID w) as [[g0 g1] g2]. solve_benign. Qed.

Lemma exit_lines_benign (s : State) : benign (exit_lines s).
Proof. destruct s; solve_benign. Qed.

Lemma benign_if (b : bool) (log : list out) :
  benign log → benign (if b then log else []).
Proof. destruct b; [done|]. intros _. constructor. Qed.

Lemma pass_inv_init finished m0 :
  pass_inv finished m0 0 (mkTallies 0 0 finished, m0).
Proof.
  unfold pass_inv, count_state. simpl. rewrite !take_0. simpl.
  split; [done|]. split; [done|]. split; [done|]. split; [constructor|].
  split; [lia|]. split; [lia|]. split; [lia|]. split; [lia|]. split; [lia|].
  exists []. split; [by rewrite app_nil_r|constructor].
Qed.

Lemma pass_inv_step fuel oi finished m0 i (s s' : Tallies * Machine Memory WorkItem) :
  (i < length (m_workItems m0))%nat →
  pass_inv finished m0 i s →
  visit fuel oi i s = Returns s' →
  pass_inv finished m0 (S i) s'.
Proof.
  intros Hi (Htot & Hlen & Hdrop & Hnr & Hb & Hw & Hf0 & Hf & Hsum & log & Hlog & Hben)
         Hvisit.
  destruct s as [t m]. simpl in Htot, Hlen, Hdrop, Hnr, Hb, Hw, Hf0, Hf, Hsum, Hlog.
  destruct (lookup_lt_is_Some_2 (m_workItems m) i) as [w Hwi]; [lia|].
  assert (Hw0 : m_workItems m0 !! i = Some w).
  { rewrite <- Hwi, <- (Nat.add_0_r i), <- !lookup_drop. by rewrite Hdrop. }
  assert (Hdrop' : drop (S i) (m_workItems m) = drop (S i) (m_workItems m0)).
  { replace (S i) with (i + 1)%nat by lia. rewrite <- !drop_drop. by rewrite Hdrop. }
  destruct (decide (getState w = READY)) as [Hst|Hst].
  - destruct (proj1 (visit_ready fuel oi i t m w s' Hwi Hst) Hvisit)
      as (w' & wg' & Hrun & Hs').
    subst s'.
    apply run_item_not_READY in Hrun. unfold pass_inv, after_visit. simpl.
    rewrite (take_S_r _ _ _ Hw0).
    rewrite total_emit_if, items_emit_if, !cout_emit_if. simpl.
    assert (Htake : take (S i) (<[i := w']> (m_workItems m))
                    = take i (m_workItems m) ++ [w']).
    { rewrite (take_S_r _ _ w') by (apply list_lookup_insert_eq; lia).
      by rewrite take_insert_ge. }
    rewrite Htake, !count_state_app, !count_state_one, drop_insert_lt by lia.
    rewrite (decide_True (P := getState w = READY)) by done.
    split; [done|]. split; [by rewrite length_insert|]. split; [done|].
    split; [apply Forall_app; split; [done|by constructor]|].
    split; [|split; [|split; [|split; [|split]]]].
    1-5: destruct (getState w'); simpl; repeat case_decide; try done; lia.
    exists (log ++ (if oi then header w else [])
                ++ (if oi then exit_lines (getState w') else [])).
    split; [by rewrite Hlog, <- !app_assoc|].
    apply Forall_app; split; [done|]. apply Forall_app; split.
    + apply benign_if, header_benign.
    + apply benign_if, exit_lines_benign.
  - rewrite (visit_skip fuel oi i t m w Hwi Hst) in Hvisit. injection Hvisit as <-.
    unfold pass_inv. simpl.
    rewrite (take_S_r _ _ _ Hw0).
    rewrite (take_S_r _ _ _ Hwi), !count_state_app, !count_state_one.
    rewrite (decide_False (P := getState w = READY)) by done.
    split; [done|]. split; [done|]. split; [done|].
    split; [apply Forall_app; split; [done|by constructor]|].
    split; [|split; [|split; [|split; [|split]]]].
    1-5: repeat case_decide; lia.
    by exists log.
Qed.

(** The invariant holds when the [for] loop of a pass is over. *)
Lemma run_items_inv fuel oi finished m0 t m1 :
  well_formed m0 →
  run_items fuel oi finished m0 = Returns (t, m1) →
  pass_inv finished m0 (m_totalWorkItems m0) (t, m1).
Proof.
  unfold well_formed, run_items. intros Hwf Hrun.
  apply (for_loop_returns (pass_inv finished m0) _ _ _ _ _ Hrun).
  - apply pass_inv_init.
  - intros i a b Hi Ha Hb. apply (pass_inv_step fuel oi finished m0 i a b); [lia|done..].
Qed.

(** Releasing the items applies [clearBarrier] to each of them. *)
Lemma release_all_spec m :
  well_formed m →
  release_all m = Returns (mkMachine (group m) (m_totalWorkItems m)
                             (clearBarrier <$> m_workItems m) (cout m)).
Proof.
  unfold well_formed, release_all. intros Hwf.
  destruct (for_loop_total
    (λ i m', group m' = group m ∧ m_totalWorkItems m' = m_totalWorkItems m ∧
             cout m' = cout m ∧ length (m_workItems m') = length (m_workItems m) ∧
             ∀ j, m_workItems m' !! j =
                  if decide (j < i)%nat then clearBarrier <$> m_workItems m !! j
                  else m_workItems m !! j)
    (m_totalWorkItems m) 0 release_body m) as (m' & -> & Hg & Ht & Hc & Hl & Hitems).
  - split; [done|]. split; [done|]. split; [done|]. split; [done|].
    intros j. rewrite decide_False; [done|lia].
  - intros i a Hi (Hg & Ht & Hc & Hl & Hitems). unfold release_body.
    destruct (lookup_lt_is_Some_2 (m_workItems a) i) as [w Hw]; [lia|].
    rewrite Hw. eexists. split; [done|]. simpl.
    split; [done|]. split; [done|]. split; [done|].
    split; [by rewrite length_insert|].
    intros j. destruct (decide (j = i)) as [->|Hne].
    + rewrite list_lookup_insert_eq by lia. rewrite decide_True by lia.
      rewrite Hitems, decide_False in Hw by lia. by rewrite Hw.
    + rewrite list_lookup_insert_ne by done. rewrite Hitems.
      repeat case_decide; try done; lia.
  - f_equal. destruct m' as [g' t' items' c']. simpl in *. subst. f_equal.
    apply list_eq. intros j. rewrite Hitems, list_lookup_fmap.
    case_decide as Hj; [done|].
    rewrite (lookup_ge_None_2 (m_workItems m) j) by lia. done.
Qed.

End PassFacts.

(** ** Convergence checks *)

Section ConvergenceFacts.
Context {Memory Kernel WorkItem : Type}.
Context `{!MemoryOps Memory} `{!KernelOps Memory Kernel}
        `{!WorkItemOps Memory Kernel WorkItem}.
Implicit Types (m : Machine Memory WorkItem) (t : Tallies)
               (wg : WorkGroup Memory) (w : WorkItem).

(** What the invariant gives once all items have been visited. *)
Lemma pass_end fuel oi finished m t m1 :
  well_formed m →
  run_items fuel oi finished m = Returns (t, m1) →
  m_totalWorkItems m1 = m_totalWorkItems m ∧
  well_formed m1 ∧
  Forall (λ w, getState w ≠ READY) (m_workItems m1) ∧
  (numBarriers t ≤ count_state BARRIER (m_workItems m1))%nat ∧
  (numWaitEvents t ≤ count_state WAIT_EVENT (m_workItems m1))%nat ∧
  (finished ≤ numFinished t)%nat ∧
  (numFinished t ≤ finished + count_state FINISHED (m_workItems m1))%nat ∧
  (numBarriers t + numWaitEvents t + numFinished t
     = finished + count_state READY (m_workItems m))%nat ∧
  ∃ log, cout m1 = cout m ++ log ∧ benign log.
Proof.
  intros Hwf Hrun.
  destruct (run_items_inv fuel oi finished m t m1 Hwf Hrun)
    as (Htot & Hlen & _ & Hnr & Hb & Hw & Hf0 & Hf & Hsum & Hlog).
  simpl in *. unfold well_formed in *.
  rewrite take_ge in Hnr, Hb, Hw, Hf by lia. rewrite take_ge in Hsum by lia.
  split; [done|]. split; [lia|]. done.
Qed.

Lemma released_READY (s : State) (items : list WorkItem) :
  s = BARRIER ∨ s = WAIT_EVENT →
  all_in_state s items → all_in_state READY (clearBarrier <$> items).
Proof.
  unfold all_in_state. intros Hs Hall. apply Forall_fmap.
  eapply Forall_impl; [exact Hall|]. intros w Hw. simpl.
  destruct Hs as [-> | ->];
    [by apply clearBarrier_BARRIER|by apply clearBarrier_WAIT_EVENT].
Qed.

(** The five ways the checks after the [for] loop of a pass can go. *)
Lemma pass_outcome fuel oi finished m t m1 :
  well_formed m →
  (finished < m_totalWorkItems m)%nat →
  run_items fuel oi finished m = Returns (t, m1) →
  (numBarriers t = m_totalWorkItems m →
   all_in_state BARRIER (m_workItems m1) ∧
   run_pass fuel oi finished m =
     Returns (Continue (finished,
       released oi "All work-items reached barrier." (group m1) m1))) ∧
  ((0 < numBarriers t < m_totalWorkItems m)%nat →
   run_pass fuel oi finished m =
     Returns (Return BarrierDivergence
                (numFinished t, emit msg_barrier_divergence m1))) ∧
  (numWaitEvents t = m_totalWorkItems m →
   all_in_state WAIT_EVENT (m_workItems m1) ∧
   run_pass fuel oi finished m =
     Returns (Continue (finished,
       released oi "All work-items reached wait for events."
         (group_copy (group m1)) m1))) ∧
  (numBarriers t = 0%nat → (0 < numWaitEvents t < m_totalWorkItems m)%nat →
   run_pass fuel oi finished m =
     Returns (Return WaitEventDivergence
                (numFinished t, emit msg_wait_divergence m1))) ∧
  (numBarriers t = 0%nat → numWaitEvents t = 0%nat →
   run_pass fuel oi finished m = Returns (Continue (numFinished t, m1))).
Proof.
  intros Hwf Hlt Hrun.
  destruct (pass_end fuel oi finished m t m1 Hwf Hrun)
    as (Htot & Hwf1 & Hnr & Hb & Hw & Hf0 & Hf & Hsum & _).
  pose proof (count_state_le READY (m_workItems m)) as HR.
  pose proof (count_state_le BARRIER (m_workItems m1)) as HB.
  pose proof (count_state_le WAIT_EVENT (m_workItems m1)) as HW.
  unfold well_formed in Hwf, Hwf1.
  unfold run_pass. rewrite Hrun. simpl. unfold check_barriers, released.
  split; [|split; [|split; [|split]]].
  - intros Hall. split; [apply count_state_all; lia|].
    rewrite decide_True by lia. rewrite release_all_spec by done. simpl.
    unfold check_wait_events. rewrite total_emit_if. simpl.
    rewrite decide_False by lia. rewrite decide_False by lia. simpl.
    do 3 f_equal. lia.
  - intros Hpart. rewrite decide_False by lia. by rewrite decide_True by lia.
  - intros Hall. split; [apply count_state_all; lia|].
    rewrite decide_False by lia. rewrite decide_False by lia. simpl.
    unfold check_wait_events. rewrite decide_True by lia.
    rewrite release_all_spec by done. simpl. do 3 f_equal. lia.
  - intros Hz Hpart. rewrite decide_False by lia. rewrite decide_False by lia.
    simpl. unfold check_wait_events.
    rewrite decide_False by lia. by rewrite decide_True by lia.
  - intros Hz Hz'. rewrite decide_False by lia. rewrite decide_False by lia.
    simpl. unfold check_wait_events.
    rewrite decide_False by lia. by rewrite decide_False by lia.
Qed.

Lemma run_loop_step fuel oi finished m r :
  (finished < m_totalWorkItems m)%nat →
  run_pass fuel oi finished m = Returns r →
  run_loop (S fuel) oi finished m =
    match r with
    | Return e (_, m2) => Returns (e, m2)
    | Continue (finished', m2) => run_loop fuel oi finished' m2
    end.
Proof. intros Hlt Hpass. simpl. rewrite decide_True by done. by rewrite Hpass. Qed.

(** C1. Barrier all-or-nothing. In a pass of [run] (the loop condition
    holds) whose [for] loop ends with the tallies [t] and the machine [m1]:
    if [numBarriers] equals [m_totalWorkItems], every item is at the barrier,
    [clearBarrier] is applied to every item, which leaves all of them READY,
    and the loop goes on with the next test of its condition, which holds;
    if [numBarriers] is strictly between 0 and [m_totalWorkItems], [run]
    returns at once after writing the barrier-divergence report, with the
    items and the group as the [for] loop left them. *)
Theorem barrier_all_or_nothing fuel oi finished m t m1 :
  well_formed m →
  (finished < m_totalWorkItems m)%nat →
  run_items fuel oi finished m = Returns (t, m1) →
  (numBarriers t = m_totalWorkItems m →
   let m2 := released oi "All work-items reached barrier." (group m1) m1 in
   all_in_state BARRIER (m_workItems m1) ∧
   m_workItems m2 = clearBarrier <$> m_workItems m1 ∧
   all_in_state READY (m_workItems m2) ∧
   run_pass fuel oi finished m = Returns (Continue (finished, m2)) ∧
   run_loop (S fuel) oi finished m = run_loop fuel oi finished m2 ∧
   (finished < m_totalWorkItems m2)%nat) ∧
  ((0 < numBarriers t < m_totalWorkItems m)%nat →
   let m2 := emit msg_barrier_divergence m1 in
   m_workItems m2 = m_workItems m1 ∧ group m2 = group m1 ∧
   run_pass fuel oi finished m
     = Returns (Return BarrierDivergence (numFinished t, m2)) ∧
   run_loop (S fuel) oi finished m = Returns (BarrierDivergence, m2)).
Proof.
  intros Hwf Hlt Hrun.
  destruct (pass_outcome fuel oi finished m t m1 Hwf Hlt Hrun)
    as (Hall & Hdiv & _).
  destruct (pass_end fuel oi finished m t m1 Hwf Hrun) as (Htot & _).
  split.
  - intros Hb m2. destruct (Hall Hb) as [HallB Hpass].
    assert (Hitems : m_workItems m2 = clearBarrier <$> m_workItems m1)
      by (unfold m2, released; by rewrite items_emit_if).
    split; [done|]. split; [done|]. split.
    { rewrite Hitems. apply (released_READY BARRIER); [by left|done]. }
    split; [done|]. split.
    + by rewrite (run_loop_step _ _ _ _ _ Hlt Hpass).
    + unfold m2, released. rewrite total_emit_if. simpl. lia.
  - intros Hb m2. specialize (Hdiv Hb).
    split; [done|]. split; [done|]. split; [done|].
    by rewrite (run_loop_step _ _ _ _ _ Hlt Hdiv).
Qed.

(** C2, as the code has it. Event-wait all-or-nothing. In a pass of [run]
    whose [for] loop ends with the tallies [t] and the machine [m1]: if
    [numWaitEvents] equals [m_totalWorkItems], every item waits for events,
    the group copy is performed on the handles of [m_waitEvents],
    [clearBarrier] is then applied to every item, which leaves all of them
    READY, and the loop goes on; if [numWaitEvents] is strictly between 0 and
    [m_totalWorkItems], [run] returns at once, without copy or release,
    after writing a divergence report: the event-wait one when no item
    reached a barrier in the pass, the barrier one otherwise. *)
Theorem wait_event_all_or_nothing fuel oi finished m t m1 :
  well_formed m →
  (finished < m_totalWorkItems m)%nat →
  run_items fuel oi finished m = Returns (t, m1) →
  (numWaitEvents t = m_totalWorkItems m →
   let m2 := released oi "All work-items reached wait for events."
               (group_copy (group m1)) m1 in
   all_in_state WAIT_EVENT (m_workItems m1) ∧
   group m2 = group_copy (group m1) ∧
   m_workItems m2 = clearBarrier <$> m_workItems m1 ∧
   all_in_state READY (m_workItems m2) ∧
   run_pass fuel oi finished m = Returns (Continue (finished, m2)) ∧
   run_loop (S fuel) oi finished m = run_loop fuel oi finished m2 ∧
   (finished < m_totalWorkItems m2)%nat) ∧
  ((0 < numWaitEvents t < m_totalWorkItems m)%nat →
   let e := if decide (numBarriers t = 0%nat)
            then WaitEventDivergence else BarrierDivergence in
   let m2 := emit (report e) m1 in
   m_workItems m2 = m_workItems m1 ∧ group m2 = group m1 ∧
   run_pass fuel oi finished m = Returns (Return e (numFinished t, m2)) ∧
   run_loop (S fuel) oi finished m = Returns (e, m2)).
Proof.
  intros Hwf Hlt Hrun.
  destruct (pass_outcome fuel oi finished m t m1 Hwf Hlt Hrun)
    as (_ & Hbdiv & Hall & Hwdiv & _).
  destruct (pass_end fuel oi finished m t m1 Hwf Hrun)
    as (Htot & _ & _ & _ & _ & Hf0 & _ & Hsum & _).
  pose proof (count_state_le READY (m_workItems m)) as HR.
  unfold well_formed in Hwf.
  split.
  - intros Hw m2. destruct (Hall Hw) as [HallW Hpass].
    assert (Hitems : m_workItems m2 = clearBarrier <$> m_workItems m1)
      by (unfold m2, released; by rewrite items_emit_if).
    split; [done|]. split; [unfold m2, released; by rewrite group_emit_if|].
    split; [done|]. split.
    { rewrite Hitems. apply (released_READY WAIT_EVENT); [by right|done]. }
    split; [done|]. split.
    + by rewrite (run_loop_step _ _ _ _ _ Hlt Hpass).
    + unfold m2, released. rewrite total_emit_if. simpl. lia.
  - intros Hw e m2.
    assert (Hpass : run_pass fuel oi finished m
                    = Returns (Return e (numFinished t, m2))).
    { unfold m2, e. destruct (decide (numBarriers t = 0%nat)) as [Hz|Hnz].
      - by apply Hwdiv.
      - apply Hbdiv. lia. }
    split; [done|]. split; [done|]. split; [done|].
    by rewrite (run_loop_step _ _ _ _ _ Hlt Hpass).
Qed.

End ConvergenceFacts.

(** ** What [run] reports *)

Section ReportFacts.
Context {Memory Kernel WorkItem : Type}.
Context `{!MemoryOps Memory} `{!KernelOps Memory Kernel}
        `{!WorkItemOps Memory Kernel WorkItem}.
Implicit Types (m : Machine Memory WorkItem) (t : Tallies)
               (wg : WorkGroup Memory) (w : WorkItem).

Lemma not_all_FINISHED (s : State) (items : list WorkItem) :
  s ≠ FINISHED → (0 < count_state s items)%nat → ¬ all_in_state FINISHED items.
Proof.
  intros Hs Hpos Hall.
  rewrite (count_state_none s items) in Hpos; [lia|].
  eapply Forall_impl; [exact Hall|]. simpl. congruence.
Qed.

(** One pass either falls through, having written lines that are no
    divergence report, or returns, having written such lines and then the
    report of its exit, with some item not FINISHED. *)
Lemma run_pass_report fuel oi finished m r :
  well_formed m →
  run_pass fuel oi finished m = Returns r →
  match r with
  | Continue (_, m2) =>
      well_formed m2 ∧ ∃ log, cout m2 = cout m ++ log ∧ benign log
  | Return e (_, m2) =>
      e ≠ Completed ∧ ¬ all_in_state FINISHED (m_workItems m2) ∧
      ∃ log, cout m2 = cout m ++ log ++ report e ∧ benign log
  end.
Proof.
  intros Hwf. unfold run_pass.
  destruct (run_items fuel oi finished m) as [[t m1]| |] eqn:Hrun; try done.
  destruct (pass_end fuel oi finished m t m1 Hwf Hrun)
    as (Htot & Hwf1 & Hnr & Hb & Hw & Hf0 & Hf & Hsum & log & Hlog & Hben).
  pose proof (count_state_partition (m_workItems m1)) as Hpart.
  simpl. unfold check_barriers.
  destruct (decide (numBarriers t = m_totalWorkItems m1)) as [HbT|HbT].
  - rewrite release_all_spec by done. simpl. unfold check_wait_events.
    rewrite total_emit_if. simpl.
    destruct (decide (numWaitEvents t = m_totalWorkItems m1)) as [HwT|HwT].
    + rewrite release_all_spec by solve_well_formed.
      simpl. intros [= <-]. split; [solve_well_formed|].
      repeat (rewrite ?cout_emit_if; simpl).
      eexists. split; [by rewrite Hlog, <- !app_assoc|].
      apply Forall_app; split; [done|].
      apply Forall_app; split; apply benign_if; solve_benign.
    + unfold well_formed in Hwf1.
      rewrite decide_False by lia. simpl. intros [= <-]. split; [solve_well_formed|].
      rewrite cout_emit_if. simpl.
      eexists. split; [by rewrite Hlog, <- !app_assoc|].
      apply Forall_app; split; [done|]. apply benign_if. solve_benign.
  - destruct (decide (0 < numBarriers t)%nat) as [HbP|HbP].
    + simpl. intros [= <-]. split; [done|]. split.
      * simpl. apply (not_all_FINISHED BARRIER); [done|lia].
      * simpl. exists log. split; [by rewrite Hlog, <- !app_assoc|done].
    + simpl. unfold check_wait_events.
      destruct (decide (numWaitEvents t = m_totalWorkItems m1)) as [HwT|HwT].
      * rewrite release_all_spec by done. simpl. intros [= <-].
        split; [solve_well_formed|].
        rewrite cout_emit_if. simpl.
        eexists. split; [by rewrite Hlog, <- !app_assoc|].
        apply Forall_app; split; [done|]. apply benign_if. solve_benign.
      * destruct (decide (0 < numWaitEvents t)%nat) as [HwP|HwP].
        -- simpl. intros [= <-]. split; [done|]. split.
           ++ simpl. apply (not_all_FINISHED WAIT_EVENT); [done|lia].
           ++ simpl. exists log. split; [by rewrite Hlog, <- !app_assoc|done].
        -- simpl. intros [= <-]. split; [done|]. by exists log.
Qed.


(** *** Aborts *)









End ReportFacts.

(** ** Event handles over the life of a group *)

Lemma uint64_succ_small (x : Z) :
  0 ≤ x < UINT64_MOD - 1 → uint64_succ x = x + 1.
Proof. intros Hx. unfold uint64_succ. apply Z.mod_small. lia. Qed.

Lemma handles_NoDup (n : nat) : NoDup (Z.of_nat <$> seq 1 n).
Proof. apply NoDup_fmap_2; [apply _|apply NoDup_seq]. Qed.

Section HandleFacts.
Context {Memory Kernel WorkItem : Type}.
Context `{!MemoryOps Memory} `{!KernelOps Memory Kernel}
        `{!WorkItemOps Memory Kernel WorkItem}.
Implicit Types (wg : WorkGroup Memory) (log : list (Z * AsyncCopy)).

Lemma allocates_true wg copy event :
  allocates copy wg = true →
  async_copy copy event wg =
    (m_nextEvent wg,
     set_registry (uint64_succ (m_nextEvent wg))
       (<[m_nextEvent wg := [copy]]> (m_pendingEvents wg)) (m_waitEvents wg) wg).
Proof.
  unfold allocates. intros Ha. apply bool_decide_eq_true in Ha.
  by apply async_copy_fresh.
Qed.

Lemma allocates_false wg copy event :
  allocates copy wg = false → (async_copy copy event wg).2 = wg.
Proof.
  unfold allocates. intros Ha. apply bool_decide_eq_false in Ha.
  destruct (scan_events (m_pendingEvents wg)
              (ascending (dom (m_pendingEvents wg))) copy) as [h|] eqn:E; [|done].
  by rewrite (async_copy_found wg copy event h E).
Qed.

(** The invariant of a history that started at construction and is short
    enough for the counter not to wrap: the handles handed out are 1, 2, 3,
    ... in this order, the counter is one more than their number, and every
    pending handle holds just the descriptor it was allocated for. *)
Lemma replay_invariant ops wg log :
  m_nextEvent wg = 1 + Z.of_nat (length log) →
  log.*1 = Z.of_nat <$> seq 1 (length log) →
  (∀ h copies, m_pendingEvents wg !! h = Some copies →
               ∃ copy, copies = [copy] ∧ (h, copy) ∈ log) →
  Z.of_nat (length log + length ops) < UINT64_MOD - 1 →
  let wg' := (replay ops (wg, log)).1 in
  let log' := (replay ops (wg, log)).2 in
  m_nextEvent wg' = 1 + Z.of_nat (length log') ∧
  log'.*1 = Z.of_nat <$> seq 1 (length log') ∧
  (∀ h copies, m_pendingEvents wg' !! h = Some copies →
               ∃ copy, copies = [copy] ∧ (h, copy) ∈ log').
Proof.
  revert wg log. induction ops as [|op ops IH]; intros wg log Hn Hlog Hp Hlen;
    [done|].
  simpl. destruct op as [copy event|event|]; simpl.
  - destruct (allocates copy wg) eqn:Ha.
    + rewrite (allocates_true wg copy event Ha).
      apply IH; simpl.
      * rewrite uint64_succ_small by (simpl in Hlen; lia).
        rewrite length_app. simpl. lia.
      * rewrite fmap_app, length_app, Hlog. simpl.
        rewrite seq_app, fmap_app. simpl. do 2 f_equal. lia.
      * intros h copies. destruct (decide (h = m_nextEvent wg)) as [->|Hne].
        -- rewrite lookup_insert_eq. intros [= <-]. exists copy.
           split; [done|]. apply elem_of_app. right. by left.
        -- rewrite lookup_insert_ne by done. intros Hh.
           destruct (Hp h copies Hh) as (c & -> & Hc). exists c.
           split; [done|]. apply elem_of_app. by left.
      * rewrite length_app. simpl in *. lia.
    + pose proof (allocates_false wg copy event Ha) as Heq.
      destruct (async_copy copy event wg) as [h wg1]. simpl in Heq. subst wg1.
      apply IH; try done. simpl in *. lia.
  - unfold wait_event. case_decide; simpl; [|done].
    apply IH; try done. simpl in *. lia.
  - destruct (group_copy_spec wg) as (_ & _ & Hl & _ & _ & Hnext).
    apply IH; try done.
    + by rewrite Hnext.
    + intros h copies. rewrite Hl. case_decide; [done|]. apply Hp.
    + simpl in *. lia.
Qed.

(** C7, as the code has it. Event handles: a group comes out of the
    constructor with the counter at 1 and no handle pending; an allocating
    request returns the counter value and advances the counter by one
    modulo 2^64, which increases it strictly unless it was at its largest
    value; a request that does not allocate leaves the counter alone; and
    over a history from construction that has fewer than 2^64 - 1
    operations, the handles handed out are 1, 2, 3, ... without repetition,
    the counter is one more than their number, and every pending handle
    holds just the descriptor it was allocated for. *)
Theorem event_handles_monotone :
  (∀ (kernel : Kernel) globalMem workDim x y z globalSize groupSize
     (m : Machine Memory WorkItem),
     WorkGroup_new kernel globalMem workDim x y z globalSize groupSize = Some m →
     m_nextEvent (group m) = 1 ∧ m_pendingEvents (group m) = ∅ ∧
     m_waitEvents (group m) = ∅) ∧
  (∀ wg copy event,
     allocates copy wg = true →
     (async_copy copy event wg).1 = m_nextEvent wg ∧
     m_nextEvent (async_copy copy event wg).2 = uint64_succ (m_nextEvent wg) ∧
     (0 ≤ m_nextEvent wg < UINT64_MOD - 1 →
      m_nextEvent (async_copy copy event wg).2 = m_nextEvent wg + 1)) ∧
  (∀ wg copy event,
     allocates copy wg = false →
     m_nextEvent (async_copy copy event wg).2 = m_nextEvent wg) ∧
  (∀ wg ops,
     m_nextEvent wg = 1 → m_pendingEvents wg = ∅ →
     Z.of_nat (length ops) < UINT64_MOD - 1 →
     let wg' := (replay ops (wg, [])).1 in
     let log := (replay ops (wg, [])).2 in
     log.*1 = Z.of_nat <$> seq 1 (length log) ∧
     NoDup log.*1 ∧
     m_nextEvent wg' = 1 + Z.of_nat (length log) ∧
     ∀ h copies, m_pendingEvents wg' !! h = Some copies →
                 ∃ copy, copies = [copy] ∧ (h, copy) ∈ log).
Proof.
  split; [|split; [|split]].
  - intros kernel globalMem workDim x y z globalSize [[gx gy] gz] m Hm.
    destruct (WorkGroup_new_group kernel globalMem workDim x y z globalSize
                gx gy gz m Hm) as (Hg & _).
    by rewrite Hg.
  - intros wg copy event Ha. rewrite (allocates_true wg copy event Ha). simpl.
    split; [done|]. split; [done|]. apply uint64_succ_small.
  - intros wg copy event Ha. by rewrite (allocates_false wg copy event Ha).
  - intros wg ops Hn Hp Hlen.
    destruct (replay_invariant ops wg []) as (Hn' & Hlog & Hp'); simpl; try done.
    + rewrite Hp. intros h copies Hh. by rewrite lookup_empty in Hh.
    + split; [done|]. split; [|done]. rewrite Hlog. apply handles_NoDup.
Qed.

End HandleFacts.

(** ** Termination *)

Section TerminationFacts.
Context {Memory Kernel WorkItem : Type}.
Context `{!MemoryOps Memory} `{!KernelOps Memory Kernel}
        `{!WorkItemOps Memory Kernel WorkItem}.
Context (G : WorkGroup Memory → list WorkItem → Prop) (μ : WorkItem → nat).
Context (Hprogress : progresses G μ).
Implicit Types (m : Machine Memory WorkItem) (t : Tallies)
               (wg : WorkGroup Memory) (w : WorkItem).







End TerminationFacts.

(** ** More fuel changes no result *)


Section FuelFacts.
Context {Memory Kernel WorkItem : Type}.
Context `{!MemoryOps Memory} `{!KernelOps Memory Kernel}
        `{!WorkItemOps Memory Kernel WorkItem}.
Implicit Types (m : Machine Memory WorkItem) (t : Tallies)
               (wg : WorkGroup Memory) (w : WorkItem).






(** A kernel whose steps succeed and progress in every group is one whose
    steps succeed and progress in the states of a run. *)
Lemma always_progresses_in_group (P : WorkItem → Prop) (μ : WorkItem → nat) :
  always_progresses P μ → progresses (λ _ items, Forall P items) μ.
Proof.
  intros [Hstep Hrel]. split; [|split; [|split]].
  - intros oi wg items i w HP Hw Hst.
    destruct (Hstep oi w wg (Forall_lookup_1 _ _ _ _ HP Hw) Hst)
      as (w' & wg' & Hs & HP' & Hlt).
    exists w', wg'. split; [done|]. split; [by apply Forall_insert|done].
  - intros wg items HP _. apply Forall_fmap.
    eapply Forall_impl; [exact HP|]. intros w Hw. by apply Hrel.
  - intros wg items HP _. apply Forall_fmap.
    eapply Forall_impl; [exact HP|]. intros w Hw. by apply Hrel.
  - intros wg items w HP Hin. rewrite Forall_forall in HP. by apply Hrel, HP.
Qed.


End FuelFacts.

(** * The scheduler at work on scripted items *)

(** [evaluate e as H] adds the equation between [e] and its value. *)
Tactic Notation "evaluate" constr(e) "as" ident(H) :=
  let r := eval vm_compute in e in
  assert (H : e = r) by (vm_compute; reflexivity).

(** ** Scripted kernels progress *)







(** ** The scenario of the design document: a 2 x 2 x 1 group whose items
    all request the same copy, wait for it and finish. One handle is
    created, the four bytes arrive in local memory, every item finishes and
    no divergence is reported. *)
Example scenario_copy_and_wait :
  ∃ m, WorkGroup_new (uniform_kernel [IAsyncCopy example_copy; IWaitEvent])
         example_global 2 0 0 0 (2, 2, 1)%nat (2, 2, 1)%nat = Some m ∧
  ∃ m', run_traced 3 false m = Returns (Completed, m') ∧
        m_nextEvent (group m') = 2 ∧
        m_pendingEvents (group m') = ∅ ∧
        load (m_localMemory (group m')) 32 4
          = [Byte.x0a; Byte.x0b; Byte.x0c; Byte.x0d] ∧
        si_state <$> m_workItems m' = [FINISHED; FINISHED; FINISHED; FINISHED] ∧
        si_event <$> m_workItems m' = [1; 1; 1; 1] ∧
        cout m' = [].
Proof.
  eexists. split; [vm_compute; reflexivity|].
  eexists. split; [vm_compute; reflexivity|].
  repeat split; vm_compute; reflexivity.
Qed.

(** The second scenario: in the same group one item finishes without
    reaching the barrier the three others reach. [run] reports the barrier
    divergence and returns with no item released. *)
Example scenario_barrier_divergence :
  ∃ m, WorkGroup_new
         (mkScriptKernel ∅ (λ i j _, if decide (i = 0 ∧ j = 0)%nat then []
                                      else [IBarrier; INop]))
         example_global 2 0 0 0 (2, 2, 1)%nat (2, 2, 1)%nat = Some m ∧
  ∃ m', run_traced 3 false m = Returns (BarrierDivergence, m') ∧
        si_state <$> m_workItems m' = [FINISHED; BARRIER; BARRIER; BARRIER] ∧
        cout m' = msg_barrier_divergence.
Proof.
  eexists. split; [vm_compute; reflexivity|].
  eexists. split; [vm_compute; reflexivity|].
  split; vm_compute; reflexivity.
Qed.

(** An item that waits for a handle nobody created aborts the run. *)
Example scenario_invalid_handle :
  run_traced 3 false (script_machine [[IWaitFor 7]; []]) = Aborts ∧
  run 3 false (script_machine [[IWaitFor 7]; []]) = Aborts.
Proof. split; vm_compute; reflexivity. Qed.

(** ** Barriers *)

(** Two items reach the barrier: both are released and the loop goes on.
    One item reaches the barrier while the other finishes: [run] returns
    with the divergence report and the first item still at the barrier. *)
Lemma barrier_all_or_nothing_witness :
  (∃ t m1,
     run_items 2 false 0 (script_machine [[IBarrier]; [IBarrier]]) = Returns (t, m1) ∧
     numBarriers t = 2%nat ∧
     let m2 := released false "All work-items reached barrier." (group m1) m1 in
     all_in_state READY (m_workItems m2) ∧
     run_loop 3 false 0 (script_machine [[IBarrier]; [IBarrier]])
       = run_loop 2 false 0 m2) ∧
  (∃ t m1,
     run_items 2 false 0 (script_machine [[IBarrier]; []]) = Returns (t, m1) ∧
     numBarriers t = 1%nat ∧
     si_state <$> m_workItems m1 = [BARRIER; FINISHED] ∧
     run_loop 3 false 0 (script_machine [[IBarrier]; []])
       = Returns (BarrierDivergence, emit msg_barrier_divergence m1)).
Proof.
  split.
  - evaluate (run_items 2 false 0 (script_machine [[IBarrier]; [IBarrier]])) as Hrun.
    eexists _, _. split; [exact Hrun|]. split; [reflexivity|].
    destruct (barrier_all_or_nothing 2 false 0 _ _ _
                (eq_refl : well_formed (script_machine [[IBarrier]; [IBarrier]]))
                ltac:(simpl; lia) Hrun) as [Hall _].
    destruct (Hall eq_refl) as (_ & _ & Hready & _ & Hloop & _).
    split; [exact Hready|exact Hloop].
  - evaluate (run_items 2 false 0 (script_machine [[IBarrier]; []])) as Hrun.
    eexists _, _. split; [exact Hrun|]. split; [reflexivity|].
    split; [reflexivity|].
    destruct (barrier_all_or_nothing 2 false 0 _ _ _
                (eq_refl : well_formed (script_machine [[IBarrier]; []]))
                ltac:(simpl; lia) Hrun) as [_ Hdiv].
    destruct (Hdiv ltac:(simpl; lia)) as (_ & _ & _ & Hloop).
    exact Hloop.
Defined.

(** ** Event waits *)

(** C2 as stated fails: one item reaches a barrier and the other an event
    wait. The number of items waiting is strictly between 0 and
    [m_totalWorkItems], yet what [run] reports is the barrier divergence,
    and the event-wait report is not written. *)
Lemma wait_divergence_reported_as_barrier :
  ∃ t m1 m',
    run_items 2 false 0
      (script_machine [[IBarrier]; [IAsyncCopy example_copy; IWaitEvent]])
      = Returns (t, m1) ∧
    (0 < numWaitEvents t < 2)%nat ∧
    run_pass 2 false 0
      (script_machine [[IBarrier]; [IAsyncCopy example_copy; IWaitEvent]])
      = Returns (Return BarrierDivergence (numFinished t, m')) ∧
    cout m' = msg_barrier_divergence ∧
    run_pass 2 false 0
      (script_machine [[IBarrier]; [IAsyncCopy example_copy; IWaitEvent]])
      ≠ Returns (Return WaitEventDivergence
                   (numFinished t, emit msg_wait_divergence m1)).
Proof.
  eexists _, _, _. split; [vm_compute; reflexivity|].
  split; [simpl; lia|]. split; [vm_compute; reflexivity|].
  split; [reflexivity|]. vm_compute. discriminate.
Qed.

(** Two items wait for the same copy: the copy is performed and both are
    released. One item waits while the other finishes: [run] returns with
    the event-wait report, the copy not performed. *)
Lemma wait_event_all_or_nothing_witness :
  (∃ t m1,
     run_items 2 false 0
       (script_machine [[IAsyncCopy example_copy; IWaitEvent];
                        [IAsyncCopy example_copy; IWaitEvent]]) = Returns (t, m1) ∧
     numWaitEvents t = 2%nat ∧
     let m2 := released false "All work-items reached wait for events."
                 (group_copy (group m1)) m1 in
     all_in_state READY (m_workItems m2) ∧
     run_loop 3 false 0
       (script_machine [[IAsyncCopy example_copy; IWaitEvent];
                        [IAsyncCopy example_copy; IWaitEvent]])
       = run_loop 2 false 0 m2) ∧
  (∃ t m1,
     run_items 2 false 0
       (script_machine [[IAsyncCopy example_copy; IWaitEvent]; []])
       = Returns (t, m1) ∧
     numWaitEvents t = 1%nat ∧ numBarriers t = 0%nat ∧
     m_pendingEvents (group m1) = {[ 1 := [example_copy] ]} ∧
     run_loop 3 false 0
       (script_machine [[IAsyncCopy example_copy; IWaitEvent]; []])
       = Returns (WaitEventDivergence, emit msg_wait_divergence m1)).
Proof.
  split.
  - evaluate (run_items 2 false 0
                (script_machine [[IAsyncCopy example_copy; IWaitEvent];
                                 [IAsyncCopy example_copy; IWaitEvent]])) as Hrun.
    eexists _, _. split; [exact Hrun|]. split; [reflexivity|].
    destruct (wait_event_all_or_nothing 2 false 0 _ _ _
                (eq_refl : well_formed
                   (script_machine [[IAsyncCopy example_copy; IWaitEvent];
                                    [IAsyncCopy example_copy; IWaitEvent]]))
                ltac:(simpl; lia) Hrun) as [Hall _].
    destruct (Hall eq_refl) as (_ & _ & _ & Hready & _ & Hloop & _).
    split; [exact Hready|exact Hloop].
  - evaluate (run_items 2 false 0
                (script_machine [[IAsyncCopy example_copy; IWaitEvent]; []])) as Hrun.
    eexists _, _. split; [exact Hrun|]. split; [reflexivity|].
    split; [reflexivity|]. split; [vm_compute; reflexivity|].
    destruct (wait_event_all_or_nothing 2 false 0 _ _ _
                (eq_refl : well_formed
                   (script_machine [[IAsyncCopy example_copy; IWaitEvent]; []]))
                ltac:(simpl; lia) Hrun) as [_ Hdiv].
    destruct (Hdiv ltac:(simpl; lia)) as (_ & _ & _ & Hloop).
    exact Hloop.
Defined.

(** ** What the caller of [run] gets *)



(** ** Termination *)


(** A kernel whose every step changes the state of its item need not let
    [run] return either: with a barrier in an endless loop, every pass ends
    with all items released, and no loop bound is enough. *)
Lemma barrier_loop_never_returns :
  (∀ oi (w : LoopItem) (wg : WorkGroup ByteMem), getState w = READY →
     ∃ w' wg', step oi w wg = Some (w', wg') ∧ getState w' ≠ READY) ∧
  ∀ fuel, run_traced fuel false loop_machine = OutOfFuel.
Proof.
  split.
  - intros oi w wg _. by eexists _, _.
  - assert (Hloop : ∀ fuel, run_loop fuel false 0 loop_machine = OutOfFuel).
    { induction fuel as [|fuel IH]; [reflexivity|].
      assert (Hpass : run_pass fuel false 0 loop_machine = OutOfFuel ∨
                      run_pass fuel false 0 loop_machine
                        = Returns (Continue (0%nat, loop_machine))).
      { destruct fuel as [|fuel]; [by left|right].
        assert (Hitem : run_item (S fuel) false (mkLoopItem READY) (script_group 1)
                        = Returns (mkLoopItem BARRIER, script_group 1)).
        { apply (stepped_run_item false 1); [by apply stepped_last|lia]. }
        assert (Hvisit : visit (S fuel) false 0 (mkTallies 0 0 0, loop_machine)
                         = Returns (mkTallies 1 0 0,
                                    mkMachine (script_group 1) 1
                                      [mkLoopItem BARRIER] [])).
        { apply (visit_ready (S fuel) false 0 _ loop_machine (mkLoopItem READY));
            [done..|]. by eexists _, _. }
        unfold run_pass, run_items.
        change (for_loop (m_totalWorkItems loop_machine) 0 (visit (S fuel) false)
                  (mkTallies 0 0 0, loop_machine))
          with (bind (visit (S fuel) false 0 (mkTallies 0 0 0, loop_machine))
                  (λ s', Returns s')).
        rewrite Hvisit. reflexivity. }
      simpl. destruct Hpass as [-> | ->]; [reflexivity|exact IH]. }
    intros fuel. unfold run_traced. by rewrite Hloop.
Qed.

(** [run] counts the finished items from 0 at every call: called on a group
    whose items have finished already, it never returns. *)
Lemma finished_group_never_returns :
  ∀ fuel, run_traced fuel false finished_machine = OutOfFuel.
Proof.
  assert (Hloop : ∀ fuel, run_loop fuel false 0 finished_machine = OutOfFuel).
  { induction fuel as [|fuel IH]; [reflexivity|].
    assert (Hpass : run_pass fuel false 0 finished_machine
                    = Returns (Continue (0%nat, finished_machine)))
      by reflexivity.
    rewrite (run_loop_step fuel false 0 finished_machine _ ltac:(simpl; lia) Hpass).
    exact IH. }
  intros fuel. unfold run_traced. by rewrite Hloop.
Qed.


(** ** The registry *)

(** A request equal to the pending one gets its handle, 1, and changes
    nothing; a request with another destination gets the counter value, 2,
    which was not pending: the counter goes to 3, handle 2 holds the new
    descriptor and handle 1 what it held. *)
Lemma async_copy_dedup_witness :
  (∃ h', async_copy example_copy 7 pending_group = (h', pending_group) ∧ h' = 1) ∧
  (async_copy other_copy 7 pending_group).1 = 2 ∧
  m_nextEvent (async_copy other_copy 7 pending_group).2 = 3 ∧
  m_pendingEvents (async_copy other_copy 7 pending_group).2 !! 2
    = Some [other_copy] ∧
  m_pendingEvents (async_copy other_copy 7 pending_group).2 !! 1
    = Some [example_copy] ∧
  m_pendingEvents pending_group !! 2 = None.
Proof.
  destruct (async_copy_dedup pending_group example_copy 7) as [Hfound _].
  destruct (async_copy_dedup pending_group other_copy 7) as [_ Hfresh].
  split.
  - destruct (Hfound 1) as (h' & Hh' & _ & _ & Huniq).
    { exists [example_copy], example_copy.
      split; [reflexivity|]. split; [left|]. by apply same_fields_eq. }
    exists h'. split; [exact Hh'|]. apply Huniq.
    intros k (copies & c & Hl & _). simpl in Hl.
    apply lookup_singleton_Some in Hl as [Hk _]. by symmetry.
  - destruct Hfresh as (Hh & Hnext & Hstored & Hkeep & _ & _ & _ & Hnew).
    { intros h copies c Hl Hc (_ & _ & Hd & _). simpl in Hl.
      apply lookup_singleton_Some in Hl as [_ <-].
      apply list_elem_of_singleton in Hc as ->. discriminate Hd. }
    split; [exact Hh|]. split; [exact Hnext|].
    rewrite Hh in Hstored, Hkeep, Hnew.
    split; [exact Hstored|].
    split; [rewrite (Hkeep 1) by (simpl; lia); reflexivity|].
    apply Hnew.
    intros h [copies Hl]. simpl in Hl.
    apply lookup_singleton_Some in Hl as [<- _]. simpl. lia.
Defined.

(** Waiting for a handle nobody created fails; waiting for handle 1 adds it
    to the set, once. *)
Lemma wait_event_contract_witness :
  wait_event 9 pending_group = None ∧
  ∃ wg', wait_event 1 pending_group = Some wg' ∧
         m_waitEvents wg' = {[ 1 ]} ∪ ∅ ∧
         wait_event 1 wg' = Some wg' ∧
         length (filter (λ h, h = 1) (ascending (m_waitEvents wg'))) = 1%nat.
Proof.
  split.
  - apply (proj1 (wait_event_contract pending_group 9)). reflexivity.
  - destruct (proj2 (wait_event_contract pending_group 1)) as (wg' & Hw & -> & Hi & Hc).
    { exists [example_copy]. reflexivity. }
    eexists. split; [exact Hw|]. split; [reflexivity|]. split; [exact Hi|exact Hc].
Defined.

(** The awaited copy moves the four bytes, then handle 1 is gone. *)
Lemma group_copy_correct_witness :
  wait_event 1 (group_copy awaited_group) = None ∧
  m_waitEvents (group_copy awaited_group) = ∅ ∧
  m_pendingEvents (group_copy awaited_group) !! 1 = None ∧
  load (m_localMemory (group_copy awaited_group)) 32 4
    = [Byte.x0a; Byte.x0b; Byte.x0c; Byte.x0d].
Proof.
  destruct (group_copy_correct awaited_group) as (_ & _ & Hl & Hgone & Hclear & _).
  assert (Hin : 1 ∈ m_waitEvents awaited_group) by (by apply elem_of_singleton).
  split; [by apply Hgone|]. split; [exact Hclear|].
  split; [rewrite Hl; by rewrite decide_True|].
  vm_compute. reflexivity.
Defined.

(** ** The group copy on the byte memory *)

Lemma ByteMem_store_snoc (mem : ByteMem) (buffer : list Byte.byte) (b : Byte.byte)
    (addr : Z) :
  ByteMem_store mem (buffer ++ [b]) addr (Z.of_nat (S (length buffer)))
    = <[addr + Z.of_nat (length buffer) := b]>
        (ByteMem_store mem buffer addr (Z.of_nat (length buffer))).
Proof.
  unfold ByteMem_store. rewrite seqZ_S.
  rewrite zip_with_app by (by rewrite length_seqZ, Nat2Z.id).
  rewrite fold_left_app. simpl. done.
Qed.

Lemma ByteMem_store_lookup (buffer : list Byte.byte) (mem : ByteMem) (addr : Z)
    (i : nat) (b : Byte.byte) :
  buffer !! i = Some b →
  ByteMem_store mem buffer addr (Z.of_nat (length buffer)) !! (addr + Z.of_nat i)
    = Some b.
Proof.
  revert i b. induction buffer as [|x buffer IH] using rev_ind; intros i b Hi; [done|].
  rewrite length_app. simpl. replace (length buffer + 1)%nat with (S (length buffer)) by lia.
  rewrite ByteMem_store_snoc.
  destruct (decide (i = length buffer)) as [->|Hne].
  - rewrite list_lookup_middle in Hi by done. injection Hi as ->.
    apply lookup_insert_eq.
  - rewrite lookup_insert_ne by lia. apply IH.
    apply lookup_lt_Some in Hi as Hlt. rewrite length_app in Hlt. simpl in Hlt.
    rewrite lookup_app_l in Hi by lia. done.
Qed.

(** What was stored is what a load at the same place gives. *)
Lemma ByteMem_load_store (mem : ByteMem) (buffer : list Byte.byte) (addr : Z) :
  ByteMem_load (ByteMem_store mem buffer addr (Z.of_nat (length buffer))) addr
    (Z.of_nat (length buffer)) = buffer.
Proof.
  apply list_eq. intros i. unfold ByteMem_load. rewrite list_lookup_fmap.
  destruct (buffer !! i) as [b|] eqn:E.
  - rewrite lookup_seqZ_lt by (apply lookup_lt_Some in E; lia). simpl.
    rewrite Z.add_0_l.
    by rewrite (ByteMem_store_lookup buffer mem addr i b E).
  - rewrite lookup_seqZ_ge by (apply lookup_ge_None in E; lia). done.
Qed.

(** One awaited handle with one descriptor from global to local memory:
    after the group copy, local memory holds at [dest] the [size] bytes
    that global memory held at [src], global memory is as it was, and the
    handle is gone. *)
Lemma fulfillment_bytes (wg : WorkGroup ByteMem) (h : Z) (d : AsyncCopy) :
  m_waitEvents wg = {[ h ]} →
  m_pendingEvents wg !! h = Some [d] →
  type d = GLOBAL_TO_LOCAL → 0 ≤ size d →
  load (m_localMemory (group_copy wg)) (dest d) (size d)
    = load (m_globalMemory wg) (src d) (size d) ∧
  m_globalMemory (group_copy wg) = m_globalMemory wg ∧
  m_pendingEvents (group_copy wg) !! h = None.
Proof.
  intros Hw Hp Ht Hs.
  destruct (group_copy_spec wg) as (_ & Hmem & Hl & _).
  rewrite Hw, ascending_singleton in Hmem. unfold descriptors_of in Hmem.
  simpl in Hmem. rewrite Hp in Hmem. simpl in Hmem.
  unfold copy_spec in Hmem. rewrite Ht in Hmem. simpl in Hmem.
  injection Hmem as Hlocal Hglobal.
  change (m_localMemory (group_copy wg))
    with (m_localMemory (event_loop (ascending (m_waitEvents wg)) wg)).
  change (m_globalMemory (group_copy wg))
    with (m_globalMemory (event_loop (ascending (m_waitEvents wg)) wg)).
  split; [|split].
  - rewrite Hlocal. simpl.
    assert (Hlen : size d = Z.of_nat (length (ByteMem_load (m_globalMemory wg)
                                                (src d) (size d)))).
    { unfold ByteMem_load. rewrite length_fmap, length_seqZ. lia. }
    set (buffer := ByteMem_load (m_globalMemory wg) (src d) (size d)) in *.
    rewrite Hlen. apply ByteMem_load_store.
  - exact Hglobal.
  - rewrite Hl, Hw. rewrite decide_True; [done|]. by apply elem_of_singleton.
Qed.

(** ** Construction *)



(** ** Event handles *)

(** Three requests after construction, the third equal to the first: two
    handles are handed out, 1 and 2, and the counter ends at 3. *)
Lemma event_handles_monotone_witness :
  let ops := [OpAsyncCopy example_copy 0; OpAsyncCopy other_copy 0;
              OpAsyncCopy example_copy 5] in
  (replay ops (script_group 1, [])).2.*1 = [1; 2] ∧
  NoDup (replay ops (script_group 1, [])).2.*1 ∧
  m_nextEvent (replay ops (script_group 1, [])).1 = 3.
Proof.
  intros ops.
  destruct (proj2 (proj2 (proj2
    (event_handles_monotone (Kernel := ScriptKernel) (WorkItem := ScriptItem))))
    (script_group 1) ops eq_refl eq_refl) as (Hlog & Hnd & Hnext & _).
  - vm_compute. reflexivity.
  - split; [|split; [exact Hnd|]].
    + vm_compute. reflexivity.
    + vm_compute. reflexivity.
Defined.

Lemma UINT64_MOD_value : UINT64_MOD = 18446744073709551616.
Proof. reflexivity. Qed.

(** One more round of request, wait and copy takes the counter one up and
    leaves the registry as it was. *)
Lemma wrap_group_round (k : Z) :
  2 ≤ k < UINT64_MOD - 1 →
  reachable_from wrap_init (wrap_group k) →
  reachable_from wrap_init (wrap_group (k + 1)).
Proof.
  intros Hk Hreach.
  assert (Hfresh : async_copy (wrap_copy k) 0 (wrap_group k)
            = (k, set_registry (k + 1)
                    (<[k := [wrap_copy k]]> {[ 1 := [wrap_copy 1] ]}) ∅
                    (wrap_group k))).
  { rewrite async_copy_fresh; [by rewrite uint64_succ_small by (simpl; lia)|].
    apply scan_events_None. intros h _ (copies & c & Hl & Hc & Hs). simpl in Hl.
    apply lookup_singleton_Some in Hl as [_ <-].
    apply list_elem_of_singleton in Hc as ->.
    destruct Hs as (_ & _ & Hd & _). simpl in Hd. lia. }
  eapply (reachable_step _ _ OpGroupCopy _ [] []);
    [eapply (reachable_step _ _ (OpWaitEvent k) _ [] []);
       [eapply (reachable_step _ _ (OpAsyncCopy (wrap_copy k) 0) _ [] _);
          [exact Hreach|] |] |].
  - simpl. rewrite Hfresh. reflexivity.
  - simpl. unfold wait_event. simpl. rewrite lookup_insert_eq.
    rewrite decide_True by (by eexists). reflexivity.
  - simpl. do 2 f_equal. unfold group_copy, set_registry. simpl.
    rewrite (right_id_L ∅ (∪)), ascending_singleton. simpl.
    unfold pending_at. simpl. rewrite lookup_insert_eq. simpl.
    unfold wrap_group. f_equal.
    rewrite delete_insert_eq. apply delete_id.
    apply lookup_singleton_ne. lia.
Qed.

Lemma wrap_group_reachable (n : nat) :
  2 + Z.of_nat n ≤ UINT64_MOD - 1 →
  reachable_from wrap_init (wrap_group (2 + Z.of_nat n)).
Proof.
  induction n as [|n IH]; intros Hn.
  - apply (reachable_step _ wrap_init (OpAsyncCopy (wrap_copy 1) 0) _ []
             [(1, wrap_copy 1)]); [apply reachable_refl|].
    vm_compute. reflexivity.
  - replace (2 + Z.of_nat (S n)) with (2 + Z.of_nat n + 1) by lia.
    apply wrap_group_round; [lia|]. apply IH. lia.
Qed.

(** C7 as stated fails at the end of the counter's range. A group can reach
    the counter value 2^64 - 1 with handle 1 still pending. The next
    allocation returns 2^64 - 1 and takes the counter to 0, which is not an
    increase; two allocations later handle 1 is handed out again, for a
    descriptor other than the one it was first given to, whose list it
    replaces. *)
Lemma event_counter_wraps :
  reachable_from wrap_init (wrap_group (UINT64_MOD - 1)) ∧
  allocates (wrap_copy 5) (wrap_group (UINT64_MOD - 1)) = true ∧
  (async_copy (wrap_copy 5) 0 (wrap_group (UINT64_MOD - 1))).1 = UINT64_MOD - 1 ∧
  m_nextEvent (async_copy (wrap_copy 5) 0 (wrap_group (UINT64_MOD - 1))).2 = 0 ∧
  ¬ (m_nextEvent (wrap_group (UINT64_MOD - 1))
       < m_nextEvent (async_copy (wrap_copy 5) 0 (wrap_group (UINT64_MOD - 1))).2) ∧
  let s := replay [OpAsyncCopy (wrap_copy 5) 0; OpAsyncCopy (wrap_copy 6) 0;
                   OpAsyncCopy (wrap_copy 7) 0]
             (wrap_group (UINT64_MOD - 1), [(1, wrap_copy 1)]) in
  s.2 = [(1, wrap_copy 1); (UINT64_MOD - 1, wrap_copy 5); (0, wrap_copy 6);
         (1, wrap_copy 7)] ∧
  ¬ NoDup s.2.*1 ∧
  m_pendingEvents s.1 !! 1 = Some [wrap_copy 7].
Proof.
  split.
  { pose proof UINT64_MOD_value as Hv.
    replace (UINT64_MOD - 1) with (2 + Z.of_nat (Z.to_nat (UINT64_MOD - 3)))
      by (rewrite Z2Nat.id; lia).
    apply wrap_group_reachable. rewrite Z2Nat.id; lia. }
  split; [vm_compute; reflexivity|]. split; [vm_compute; reflexivity|].
  split; [vm_compute; reflexivity|]. split; [vm_compute; discriminate|].
  split; [vm_compute; reflexivity|]. split; [|vm_compute; reflexivity].
  intros Hnd. vm_compute in Hnd.
  apply NoDup_cons in Hnd as [Hnotin _]. apply Hnotin.
  right. right. left.
Qed.

(** C3 as stated fails once the counter has wrapped. A group can reach a
    state where the counter is at 1 while handle 1 is still pending. A
    request whose descriptor differs from every pending one is then given
    handle 1, which is no fresh handle, and the list of handle 1 is replaced:
    the descriptor it held is pending no more. *)
Lemma stale_handle_reissued :
  reachable_from wrap_init stale_group ∧
  (∀ h copies c, m_pendingEvents stale_group !! h = Some copies → c ∈ copies →
     ¬ same_fields c (wrap_copy 7)) ∧
  (async_copy (wrap_copy 7) 0 stale_group).1 = 1 ∧
  m_pendingEvents stale_group !! 1 = Some [wrap_copy 1] ∧
  m_pendingEvents (async_copy (wrap_copy 7) 0 stale_group).2 !! 1
    = Some [wrap_copy 7] ∧
  ∀ h, ¬ holds (m_pendingEvents (async_copy (wrap_copy 7) 0 stale_group).2)
           (wrap_copy 1) h.
Proof.
  split.
  { assert (Hreach : reachable_from wrap_init (wrap_group (UINT64_MOD - 1))).
    { pose proof UINT64_MOD_value as Hv.
      replace (UINT64_MOD - 1) with (2 + Z.of_nat (Z.to_nat (UINT64_MOD - 3)))
        by (rewrite Z2Nat.id; lia).
      apply wrap_group_reachable. rewrite Z2Nat.id; lia. }
    eapply (reachable_step _ _ (OpAsyncCopy (wrap_copy 6) 0) _ [] _);
      [eapply (reachable_step _ _ (OpAsyncCopy (wrap_copy 5) 0) _ [] _);
         [exact Hreach|vm_compute; reflexivity]
      |vm_compute; reflexivity]. }
  assert (Hnone : ∀ (wg : WorkGroup ByteMem) copy,
            allocates copy wg = true → ∀ h, ¬ holds (m_pendingEvents wg) copy h).
  { intros wg copy Ha h Hh. unfold allocates in Ha. apply bool_decide_eq_true in Ha.
    exact (proj1 (scan_events_None _ _ _) Ha h (holds_in_dom wg copy h Hh) Hh). }
  split.
  { intros h copies c Hl Hc Hs.
    apply (Hnone stale_group (wrap_copy 7) ltac:(vm_compute; reflexivity) h).
    by exists copies, c. }
  split; [vm_compute; reflexivity|]. split; [vm_compute; reflexivity|].
  split; [vm_compute; reflexivity|].
  apply Hnone. vm_compute. reflexivity.
Qed.

(** * Further properties *)

(** ** Descriptor equality *)

(** X1. [operator==] on descriptors returns true exactly for two
    descriptors that are equal, field by field; it is reflexive, symmetric
    and transitive. *)
Theorem AsyncCopy_eqb_equivalence :
  (∀ a b, AsyncCopy_eqb a b = true ↔ a = b) ∧
  (∀ a, AsyncCopy_eqb a a = true) ∧
  (∀ a b, AsyncCopy_eqb a b = AsyncCopy_eqb b a) ∧
  (∀ a b c, AsyncCopy_eqb a b = true → AsyncCopy_eqb b c = true →
            AsyncCopy_eqb a c = true).
Proof.
  assert (Heq : ∀ a b, AsyncCopy_eqb a b = true ↔ a = b).
  { intros a b. by rewrite AsyncCopy_eqb_same_fields, same_fields_eq. }
  split; [done|]. split; [intros a; by apply Heq|]. split.
  - intros a b.
    destruct (AsyncCopy_eqb a b) eqn:E1, (AsyncCopy_eqb b a) eqn:E2; try done.
    + apply Heq in E1 as ->. pose proof (proj2 (Heq b b) eq_refl). congruence.
    + apply Heq in E2 as ->. pose proof (proj2 (Heq a a) eq_refl). congruence.
  - intros a b c H1 H2. apply Heq in H1, H2. subst. by apply Heq.
Qed.

(** ** Requests, waits and the group copy together *)

Section RegistryLaws.
Context {Memory : Type} `{!MemoryOps Memory}.
Implicit Types (wg : WorkGroup Memory) (copy : AsyncCopy).

(** X2. The same request made twice in a row, whatever the second argument,
    gets the same handle twice, and the second call leaves the group as the
    first call left it. *)
Theorem async_copy_repeated wg copy (event1 event2 : Z) :
  let first := async_copy copy event1 wg in
  async_copy copy event2 first.2 = first.
Proof. intros first. apply async_copy_twice. Qed.

(** X3. After [async_copy] the handle it returned is pending and holds a
    descriptor equal to the request, so that [wait_event] on it does not
    fail; every handle that was pending is still pending, every handle
    other than the counter value holds what it held, and neither the
    awaited set nor the two memories have changed. *)
Theorem async_copy_then_wait wg copy event :
  let h := (async_copy copy event wg).1 in
  let wg' := (async_copy copy event wg).2 in
  holds (m_pendingEvents wg') copy h ∧
  is_Some (wait_event h wg') ∧
  (∀ k, is_Some (m_pendingEvents wg !! k) → is_Some (m_pendingEvents wg' !! k)) ∧
  (∀ k, k ≠ m_nextEvent wg → m_pendingEvents wg' !! k = m_pendingEvents wg !! k) ∧
  m_waitEvents wg' = m_waitEvents wg ∧
  m_localMemory wg' = m_localMemory wg ∧
  m_globalMemory wg' = m_globalMemory wg.
Proof.
  cbv zeta. destruct (async_copy_post wg copy event) as (Hh & Hrest).
  split; [exact Hh|]. split; [|exact Hrest].
  destruct Hh as (copies & c & Hl & _).
  unfold wait_event. rewrite decide_True; [by eexists|]. rewrite Hl. by eexists.
Qed.

(** *** The invariant of the registry *)

Lemma registry_inv_async_copy wg copy event :
  registry_inv wg → m_nextEvent wg < UINT64_MOD - 1 →
  registry_inv (async_copy copy event wg).2.
Proof.
  intros (H1 & Hs & Hr & Hd & Hw) Hlt.
  destruct (scan_events (m_pendingEvents wg)
              (ascending (dom (m_pendingEvents wg))) copy) as [h|] eqn:E.
  - rewrite (async_copy_found wg copy event h E). simpl.
    exact (conj H1 (conj Hs (conj Hr (conj Hd Hw)))).
  - rewrite (async_copy_fresh wg copy event E). simpl.
    assert (Hfresh : ∀ h, m_pendingEvents wg !! h = Some [copy] → False).
    { intros h Hh.
      assert (Hold : holds (m_pendingEvents wg) copy h).
      { exists [copy], copy. split; [done|]. split; [left|]. by apply same_fields_eq. }
      exact (proj1 (scan_events_None _ _ _) E h (holds_in_dom wg copy h Hold) Hold). }
    unfold registry_inv. simpl. rewrite uint64_succ_small by lia.
    split; [lia|]. split; [|split; [|split]].
    + intros h copies. destruct (decide (h = m_nextEvent wg)) as [->|Hne].
      * rewrite lookup_insert_eq. intros [= <-]. by exists copy.
      * rewrite lookup_insert_ne by done. apply Hs.
    + intros h. destruct (decide (h = m_nextEvent wg)) as [->|Hne]; [lia|].
      rewrite lookup_insert_ne by done. intros Hh. specialize (Hr h Hh). lia.
    + intros h1 h2 c.
      destruct (decide (h1 = m_nextEvent wg)) as [->|Hne1];
        destruct (decide (h2 = m_nextEvent wg)) as [->|Hne2]; [done| | |].
      * rewrite lookup_insert_eq, lookup_insert_ne by done.
        intros [= <-] Hh. by destruct (Hfresh h2).
      * rewrite lookup_insert_eq, lookup_insert_ne by done.
        intros Hh [= <-]. by destruct (Hfresh h1).
      * rewrite !lookup_insert_ne by done. apply Hd.
    + rewrite dom_insert_L. etrans; [exact Hw|apply union_subseteq_r].
Qed.

Lemma registry_inv_wait_event wg (event : Z) wg' :
  registry_inv wg → wait_event event wg = Some wg' → registry_inv wg'.
Proof.
  intros (H1 & Hs & Hr & Hd & Hw). unfold wait_event.
  case_decide as Hsome; [|done]. intros [= <-].
  unfold registry_inv. simpl. split; [done|]. split; [done|].
  split; [done|]. split; [done|].
  apply union_least; [|done]. by apply singleton_subseteq_l, elem_of_dom.
Qed.

Lemma registry_inv_group_copy wg : registry_inv wg → registry_inv (group_copy wg).
Proof.
  intros (H1 & Hs & Hr & Hd & Hw).
  destruct (group_copy_spec wg) as (_ & _ & Hl & _ & Hempty & Hn).
  unfold registry_inv. rewrite Hn, Hempty.
  split; [done|]. split; [|split; [|split]].
  - intros h copies. rewrite Hl. case_decide; [done|]. apply Hs.
  - intros h. rewrite Hl. case_decide; [by intros [? ?]|]. apply Hr.
  - intros h1 h2 c. rewrite !Hl. repeat case_decide; try done. apply Hd.
  - apply empty_subseteq.
Qed.

Lemma apply_op_counter (op : RegistryOp) wg log wg' log' :
  1 ≤ m_nextEvent wg < UINT64_MOD - 1 →
  apply_op op (wg, log) = Some (wg', log') →
  m_nextEvent wg' ≤ m_nextEvent wg + 1.
Proof.
  intros Hn. destruct op as [copy event|event|]; simpl.
  - destruct (scan_events (m_pendingEvents wg)
                (ascending (dom (m_pendingEvents wg))) copy) as [h|] eqn:E.
    + rewrite (async_copy_found wg copy event h E). intros [= <- _]. lia.
    + rewrite (async_copy_fresh wg copy event E). intros [= <- _]. simpl.
      rewrite uint64_succ_small by lia. lia.
  - destruct (wait_event event wg) as [wg1|] eqn:E; simpl; [|done].
    intros [= <- _]. unfold wait_event in E. case_decide; [|done].
    injection E as <-. simpl. lia.
  - intros [= <- _]. destruct (group_copy_spec wg) as (_ & _ & _ & _ & _ & ->). lia.
Qed.

Lemma registry_inv_apply_op (op : RegistryOp) wg log wg' log' :
  registry_inv wg → m_nextEvent wg < UINT64_MOD - 1 →
  apply_op op (wg, log) = Some (wg', log') → registry_inv wg'.
Proof.
  intros Hinv Hlt. destruct op as [copy event|event|]; simpl.
  - pose proof (registry_inv_async_copy wg copy event Hinv Hlt) as H.
    destruct (async_copy copy event wg) as [h wg1]. by intros [= <- _].
  - destruct (wait_event event wg) as [wg1|] eqn:E; simpl; [|done].
    intros [= <- _]. by eapply registry_inv_wait_event.
  - intros [= <- _]. by apply registry_inv_group_copy.
Qed.

Lemma registry_inv_replay (ops : list RegistryOp) wg log :
  registry_inv wg → m_nextEvent wg + Z.of_nat (length ops) < UINT64_MOD →
  registry_inv (replay ops (wg, log)).1.
Proof.
  revert wg log. induction ops as [|op ops IH]; intros wg log Hinv Hlen; [done|].
  change (replay (op :: ops) (wg, log))
    with (match apply_op op (wg, log) with
          | Some s' => replay ops s'
          | None => (wg, log)
          end).
  destruct (apply_op op (wg, log)) as [[wg' log']|] eqn:E; [|exact Hinv].
  simpl in Hlen. pose proof Hinv as (H1 & _).
  apply IH.
  - eapply registry_inv_apply_op; [done| |done]. lia.
  - pose proof (apply_op_counter op wg log wg' log') as Hc.
    specialize (Hc ltac:(lia) E). lia.
Qed.

(** X4. The registry invariant. From a group as the constructor leaves it
    (counter 1, nothing pending, nothing awaited), after any history of
    fewer than 2^64 - 1 requests, waits and group copies: every pending
    handle holds exactly one descriptor and lies between 1 and the counter,
    no two pending handles hold the same descriptor, and every awaited
    handle is pending, so that the group copy never looks up a handle that
    has no list. *)
Theorem registry_invariant wg (ops : list RegistryOp) :
  m_nextEvent wg = 1 → m_pendingEvents wg = ∅ → m_waitEvents wg = ∅ →
  Z.of_nat (length ops) < UINT64_MOD - 1 →
  registry_inv (replay ops (wg, [])).1.
Proof.
  intros Hn Hp Hw Hlen. apply registry_inv_replay; [|lia].
  unfold registry_inv. rewrite Hn, Hp, Hw. split; [lia|].
  split; [|split; [|split]].
  - intros h copies. by rewrite lookup_empty.
  - intros h. rewrite lookup_empty. by intros [? ?].
  - intros h1 h2 c. by rewrite lookup_empty.
  - apply empty_subseteq.
Qed.

(** X5. In a group that satisfies the registry invariant and whose counter
    is below its largest value, requests with different descriptors get
    different handles. *)
Theorem distinct_requests_distinct_handles wg copy1 copy2 (event1 event2 : Z) :
  registry_inv wg → m_nextEvent wg < UINT64_MOD - 1 → copy1 ≠ copy2 →
  let first := async_copy copy1 event1 wg in
  let second := async_copy copy2 event2 first.2 in
  second.1 ≠ first.1.
Proof.
  intros Hinv Hlt Hne first second.
  pose proof (registry_inv_async_copy wg copy1 event1 Hinv Hlt) as Hinv1.
  destruct (async_copy_post wg copy1 event1) as (Hh1 & _).
  destruct (async_copy_post first.2 copy2 event2) as (Hh2 & _ & Hkeep & _).
  fold first in Hinv1, Hh1. fold second in Hh2.
  destruct Hinv1 as (_ & Hs & Hr & _ & _).
  destruct Hh1 as (copies1 & c1 & Hl1 & Hc1 & Hf1).
  destruct (Hs _ _ Hl1) as (d1 & ->).
  apply list_elem_of_singleton in Hc1 as ->. apply same_fields_eq in Hf1 as ->.
  intros Heq.
  destruct Hh2 as (copies2 & c2 & Hl2 & Hc2 & Hf2).
  apply same_fields_eq in Hf2 as ->. rewrite Heq in Hl2.
  assert (Hlt1 : first.1 < m_nextEvent first.2).
  { apply Hr. rewrite Hl1. by eexists. }
  rewrite Hkeep in Hl2 by lia. rewrite Hl1 in Hl2. injection Hl2 as <-.
  apply list_elem_of_singleton in Hc2. congruence.
Qed.

(** X6. A group copy with nothing awaited changes nothing: no memory is
    read or written, and the registry and the counter stay as they are. *)
Theorem group_copy_nothing_awaited wg :
  m_waitEvents wg = ∅ → group_copy wg = wg.
Proof.
  intros Hw. unfold group_copy. rewrite Hw.
  unfold ascending. rewrite elements_empty. simpl.
  destruct wg. simpl in *. by subst.
Qed.

Lemma foldl_copy_spec_direction (mem : Memory * Memory) (copies : list AsyncCopy) :
  (Forall (λ d, type d = GLOBAL_TO_LOCAL) copies →
   (foldl copy_spec mem copies).2 = mem.2) ∧
  (Forall (λ d, type d = LOCAL_TO_GLOBAL) copies →
   (foldl copy_spec mem copies).1 = mem.1).
Proof.
  revert mem. induction copies as [|d rest IH]; intros mem; [done|]. simpl.
  split; intros Hall; apply Forall_cons in Hall as [Hd Hall].
  - rewrite (proj1 (IH _) Hall). unfold copy_spec. by rewrite Hd.
  - rewrite (proj2 (IH _) Hall). unfold copy_spec. by rewrite Hd.
Qed.

Lemma descriptors_of_Forall (P : AsyncCopy → Prop)
    (pending : gmap Z (list AsyncCopy)) (handles : list Z) :
  (∀ h copies d, h ∈ handles → pending !! h = Some copies → d ∈ copies → P d) →
  Forall P (descriptors_of pending handles).
Proof.
  intros H. unfold descriptors_of. apply Forall_forall. intros d Hd.
  apply list_elem_of_join in Hd as (copies & Hd & Hc).
  apply list_elem_of_fmap in Hc as (h & -> & Hh).
  destruct (pending !! h) as [l|] eqn:E; simpl in Hd.
  - by apply (H h l d).
  - by apply elem_of_nil in Hd.
Qed.

(** X7. The direction of a descriptor is honoured: a group copy whose
    awaited descriptors are all GLOBAL_TO_LOCAL leaves global memory as it
    is, and one whose awaited descriptors are all LOCAL_TO_GLOBAL leaves
    local memory as it is. *)
Theorem group_copy_direction wg :
  ((∀ h copies d, h ∈ m_waitEvents wg → m_pendingEvents wg !! h = Some copies →
      d ∈ copies → type d = GLOBAL_TO_LOCAL) →
   m_globalMemory (group_copy wg) = m_globalMemory wg) ∧
  ((∀ h copies d, h ∈ m_waitEvents wg → m_pendingEvents wg !! h = Some copies →
      d ∈ copies → type d = LOCAL_TO_GLOBAL) →
   m_localMemory (group_copy wg) = m_localMemory wg).
Proof.
  destruct (group_copy_spec wg) as (_ & Hm & _).
  split; intros Hall.
  - change (m_globalMemory (group_copy wg))
      with (m_localMemory (group_copy wg), m_globalMemory (group_copy wg)).2.
    rewrite Hm. apply foldl_copy_spec_direction, descriptors_of_Forall.
    intros h copies d Hh. apply Hall. by apply ascending_elem_of.
  - change (m_localMemory (group_copy wg))
      with (m_localMemory (group_copy wg), m_globalMemory (group_copy wg)).1.
    rewrite Hm. apply foldl_copy_spec_direction, descriptors_of_Forall.
    intros h copies d Hh. apply Hall. by apply ascending_elem_of.
Qed.

(** X8. A whole cycle. In a group with nothing awaited and its counter
    value not pending, a request that allocates, the wait for its handle
    and the group copy together perform that one copy and nothing else: the
    wait succeeds, the memories are those after the one descriptor, the
    pending registry is back to what it was, nothing is awaited, the counter
    has advanced, and the handle can no longer be waited for. *)
Theorem request_wait_copy_cycle wg copy (event : Z) :
  m_waitEvents wg = ∅ → allocates copy wg = true →
  m_pendingEvents wg !! m_nextEvent wg = None →
  let h := (async_copy copy event wg).1 in
  ∃ wg2, wait_event h (async_copy copy event wg).2 = Some wg2 ∧
    let wg3 := group_copy wg2 in
    h = m_nextEvent wg ∧
    (m_localMemory wg3, m_globalMemory wg3)
      = copy_spec (m_localMemory wg, m_globalMemory wg) copy ∧
    m_pendingEvents wg3 = m_pendingEvents wg ∧
    m_waitEvents wg3 = ∅ ∧
    m_nextEvent wg3 = uint64_succ (m_nextEvent wg) ∧
    wait_event h wg3 = None.
Proof.
  intros Hw Ha Hnone. cbv zeta.
  unfold allocates in Ha. apply bool_decide_eq_true in Ha.
  rewrite (async_copy_fresh wg copy event Ha). cbn [fst snd].
  set (wg1 := set_registry _ _ _ wg).
  set (wg2 := set_registry (m_nextEvent wg1) (m_pendingEvents wg1)
                ({[m_nextEvent wg]} ∪ m_waitEvents wg1) wg1).
  exists wg2. split.
  { unfold wait_event. rewrite decide_True; [done|].
    unfold wg1. simpl. rewrite lookup_insert_eq. by eexists. }
  destruct (group_copy_spec wg2) as (_ & Hm & Hl & Hgone & Hempty & Hn).
  assert (Hwait : m_waitEvents wg2 = {[m_nextEvent wg]}).
  { unfold wg2, wg1. simpl. rewrite Hw. by rewrite (right_id_L ∅ (∪)). }
  rewrite Hwait in Hm, Hl, Hgone.
  split; [done|]. split; [|split; [|split; [|split]]].
  - rewrite Hm, ascending_singleton. unfold descriptors_of, wg2, wg1. simpl.
    by rewrite lookup_insert_eq.
  - apply map_eq. intros k. rewrite Hl.
    destruct (decide (k = m_nextEvent wg)) as [->|Hne].
    + rewrite decide_True by (by apply elem_of_singleton). done.
    + rewrite decide_False by (by rewrite elem_of_singleton).
      unfold wg2, wg1. simpl. by rewrite lookup_insert_ne.
  - exact Hempty.
  - by rewrite Hn.
  - apply Hgone. by apply elem_of_singleton.
Qed.

(** X9. The order of two waits does not matter: waiting for one handle and
    then for another gives the same group, or the same failure, as waiting
    for them the other way round. *)
Theorem wait_event_commutes wg (event1 event2 : Z) :
  (wg1 ← wait_event event1 wg; wait_event event2 wg1)
    = (wg2 ← wait_event event2 wg; wait_event event1 wg2).
Proof.
  unfold wait_event.
  destruct (decide (is_Some (m_pendingEvents wg !! event1))) as [H1|H1];
    destruct (decide (is_Some (m_pendingEvents wg !! event2))) as [H2|H2]; simpl.
  - rewrite !decide_True by done. unfold set_registry. simpl.
    do 2 f_equal.
    by rewrite !(assoc_L (∪)), (comm_L (∪) {[event2]} {[event1]}).
  - by rewrite decide_False.
  - by rewrite decide_False.
  - done.
Qed.

End RegistryLaws.

(** ** The passes of [run] *)

Section SchedulerLaws.
Context {Memory Kernel WorkItem : Type}.
Context `{!MemoryOps Memory} `{!KernelOps Memory Kernel}
        `{!WorkItemOps Memory Kernel WorkItem}.
Implicit Types (m : Machine Memory WorkItem) (t : Tallies)
               (wg : WorkGroup Memory) (w : WorkItem).

Lemma tally_inv_init finished m0 :
  tally_inv finished m0 0 (mkTallies 0 0 finished, m0).
Proof.
  unfold tally_inv, count_state. simpl. rewrite ?take_0. simpl.
  split; [done|]. split; [done|]. split; [done|].
  split; [intros j w Hj; lia|]. split; [lia|]. split; lia.
Qed.

Lemma tally_inv_step fuel oi finished m0 i (s s' : Tallies * Machine Memory WorkItem) :
  (i < length (m_workItems m0))%nat →
  tally_inv finished m0 i s →
  visit fuel oi i s = Returns s' →
  tally_inv finished m0 (S i) s'.
Proof.
  intros Hi (Htot & Hlen & Hdrop & Hkeep & Hb & Hw & Hf) Hvisit.
  destruct s as [t m]. simpl in Htot, Hlen, Hdrop, Hkeep, Hb, Hw, Hf.
  destruct (lookup_lt_is_Some_2 (m_workItems m) i) as [w Hwi]; [lia|].
  assert (Hw0 : m_workItems m0 !! i = Some w).
  { rewrite <- Hwi, <- (Nat.add_0_r i), <- !lookup_drop. by rewrite Hdrop. }
  assert (Hdrop' : drop (S i) (m_workItems m) = drop (S i) (m_workItems m0)).
  { replace (S i) with (i + 1)%nat by lia. rewrite <- !drop_drop. by rewrite Hdrop. }
  destruct (decide (getState w = READY)) as [Hst|Hst].
  - destruct (proj1 (visit_ready fuel oi i t m w s' Hwi Hst) Hvisit)
      as (w' & wg' & Hrun & Hs').
    subst s'.
    apply run_item_not_READY in Hrun. unfold tally_inv, after_visit. simpl.
    rewrite (take_S_r _ _ _ Hw0).
    rewrite total_emit_if, items_emit_if. simpl.
    assert (Htake : take (S i) (<[i := w']> (m_workItems m))
                    = take i (m_workItems m) ++ [w']).
    { rewrite (take_S_r _ _ w') by (apply list_lookup_insert_eq; lia).
      by rewrite take_insert_ge. }
    rewrite Htake, !count_state_app, !count_state_one, drop_insert_lt by lia.
    rewrite Hst.
    split; [done|]. split; [by rewrite length_insert|]. split; [done|].
    split.
    { intros j v Hj Hv Hnr. destruct (decide (j = i)) as [->|Hne].
      - rewrite Hw0 in Hv. injection Hv as <-. done.
      - rewrite list_lookup_insert_ne by done. apply Hkeep; [lia|done..]. }
    destruct (getState w'); simpl; repeat case_decide; try done;
      (split; [lia|split; lia]).
  - rewrite (visit_skip fuel oi i t m w Hwi Hst) in Hvisit. injection Hvisit as <-.
    unfold tally_inv. simpl.
    rewrite (take_S_r _ _ _ Hw0).
    rewrite (take_S_r _ _ _ Hwi), !count_state_app, !count_state_one.
    split; [done|]. split; [done|]. split; [done|].
    split.
    { intros j v Hj Hv Hnr. destruct (decide (j = i)) as [->|Hne].
      - by rewrite Hwi, <- Hw0.
      - apply Hkeep; [lia|done..]. }
    repeat case_decide; (split; [lia|split; lia]).
Qed.

(** What the second invariant gives once all items have been visited. *)
Lemma run_items_tally fuel oi finished m t m1 :
  well_formed m →
  run_items fuel oi finished m = Returns (t, m1) →
  (∀ j w, m_workItems m !! j = Some w → getState w ≠ READY →
          m_workItems m1 !! j = Some w) ∧
  (numBarriers t + count_state BARRIER (m_workItems m)
     = count_state BARRIER (m_workItems m1))%nat ∧
  (numWaitEvents t + count_state WAIT_EVENT (m_workItems m)
     = count_state WAIT_EVENT (m_workItems m1))%nat ∧
  (numFinished t + count_state FINISHED (m_workItems m)
     = finished + count_state FINISHED (m_workItems m1))%nat.
Proof.
  unfold well_formed, run_items. intros Hwf Hrun.
  destruct (for_loop_returns (tally_inv finished m) _ _ _ _ _ Hrun
              (tally_inv_init finished m))
    as (Htot & Hlen & _ & Hkeep & Hb & Hw & Hf).
  { intros i a b Hi Ha Hb. apply (tally_inv_step fuel oi finished m i a b); [lia|done..]. }
  simpl in *. rewrite !take_ge in Hb, Hw, Hf by lia.
  split; [|done]. intros j w Hj Hnr. apply Hkeep; [|done..].
  apply lookup_lt_Some in Hj. lia.
Qed.

(** X10. The accounts of a pass. When the [for] loop of a pass is over, no
    item is READY; an item that was not READY when the pass started has not
    been touched; each of [numBarriers], [numWaitEvents] and [numFinished]
    has grown by exactly the growth of the number of items in the state it
    counts; and the three together have grown by the number of items that
    were READY when the pass started. *)
Theorem pass_accounting fuel oi finished m t m1 :
  well_formed m →
  run_items fuel oi finished m = Returns (t, m1) →
  Forall (λ w, getState w ≠ READY) (m_workItems m1) ∧
  length (m_workItems m1) = length (m_workItems m) ∧
  (∀ j w, m_workItems m !! j = Some w → getState w ≠ READY →
          m_workItems m1 !! j = Some w) ∧
  (numBarriers t + count_state BARRIER (m_workItems m)
     = count_state BARRIER (m_workItems m1))%nat ∧
  (numWaitEvents t + count_state WAIT_EVENT (m_workItems m)
     = count_state WAIT_EVENT (m_workItems m1))%nat ∧
  (numFinished t + count_state FINISHED (m_workItems m)
     = finished + count_state FINISHED (m_workItems m1))%nat ∧
  (numBarriers t + numWaitEvents t + numFinished t
     = finished + count_state READY (m_workItems m))%nat.
Proof.
  intros Hwf Hrun.
  destruct (pass_end fuel oi finished m t m1 Hwf Hrun)
    as (Htot & Hwf1 & Hnr & _ & _ & _ & _ & Hsum & _).
  destruct (run_items_tally fuel oi finished m t m1 Hwf Hrun)
    as (Hkeep & Hb & Hw & Hf).
  unfold well_formed in *.
  split; [done|]. split; [lia|]. done.
Qed.

(** What a pass leaves, for a loop whose count of finished items does not
    exceed the number of FINISHED items. *)
Lemma run_pass_after fuel oi finished m r :
  well_formed m →
  (finished ≤ count_state FINISHED (m_workItems m))%nat →
  run_pass fuel oi finished m = Returns r →
  match r with
  | Continue (nf, m2) =>
      well_formed m2 ∧ m_totalWorkItems m2 = m_totalWorkItems m ∧
      (nf ≤ count_state FINISHED (m_workItems m2))%nat
  | Return e (_, m2) =>
      well_formed m2 ∧ m_totalWorkItems m2 = m_totalWorkItems m ∧
      Forall (λ w, getState w ≠ READY) (m_workItems m2)
  end.
Proof.
  intros Hwf Hfin. unfold run_pass.
  destruct (run_items fuel oi finished m) as [[t m1]| |] eqn:Hrun; try done.
  destruct (pass_end fuel oi finished m t m1 Hwf Hrun)
    as (Htot & Hwf1 & Hnr & Hb & Hw & _).
  destruct (run_items_tally fuel oi finished m t m1 Hwf Hrun) as (_ & _ & _ & Hf).
  pose proof (count_state_partition (m_workItems m1)) as Hpart.
  simpl. unfold check_barriers.
  destruct (decide (numBarriers t = m_totalWorkItems m1)) as [HbT|HbT].
  - rewrite release_all_spec by done. simpl. unfold check_wait_events.
    rewrite total_emit_if. simpl.
    destruct (decide (numWaitEvents t = m_totalWorkItems m1)) as [HwT|HwT].
    + rewrite release_all_spec by solve_well_formed.
      simpl. intros [= <-]. split; [solve_well_formed|].
      repeat (rewrite ?total_emit_if, ?items_emit_if; simpl).
      split; [done|]. unfold well_formed in Hwf1. lia.
    + unfold well_formed in Hwf1.
      rewrite decide_False by lia. simpl. intros [= <-]. split; [solve_well_formed|].
      repeat (rewrite ?total_emit_if, ?items_emit_if; simpl).
      split; [done|]. lia.
  - destruct (decide (0 < numBarriers t)%nat) as [HbP|HbP].
    + simpl. intros [= <-]. done.
    + simpl. unfold check_wait_events.
      destruct (decide (numWaitEvents t = m_totalWorkItems m1)) as [HwT|HwT].
      * rewrite release_all_spec by done. simpl. intros [= <-].
        split; [solve_well_formed|].
        repeat (rewrite ?total_emit_if, ?items_emit_if; simpl).
        split; [done|]. unfold well_formed in Hwf1. lia.
      * destruct (decide (0 < numWaitEvents t)%nat) as [HwP|HwP].
        -- simpl. intros [= <-]. done.
        -- simpl. intros [= <-]. split; [done|]. split; [done|]. lia.
Qed.

Lemma run_loop_after fuel oi finished m e m' :
  well_formed m →
  (finished ≤ count_state FINISHED (m_workItems m))%nat →
  run_loop fuel oi finished m = Returns (e, m') →
  well_formed m' ∧ m_totalWorkItems m' = m_totalWorkItems m ∧
  Forall (λ w, getState w ≠ READY) (m_workItems m') ∧
  (e = Completed → all_in_state FINISHED (m_workItems m')).
Proof.
  assert (Hdone : ∀ finished m,
            well_formed m →
            (finished ≤ count_state FINISHED (m_workItems m))%nat →
            ¬ (finished < m_totalWorkItems m)%nat →
            all_in_state FINISHED (m_workItems m)).
  { intros nf m0 Hwf Hfin Hc. apply count_state_all.
    pose proof (count_state_le FINISHED (m_workItems m0)).
    unfold well_formed in Hwf. lia. }
  assert (Hnr : ∀ m, all_in_state FINISHED (m_workItems m) →
                     Forall (λ w, getState w ≠ READY) (m_workItems m)).
  { intros m0 Hall. eapply Forall_impl; [exact Hall|]. simpl. congruence. }
  revert finished m. induction fuel as [|fuel IH]; intros finished m Hwf Hfin; simpl;
    case_decide as Hc; try done.
  - intros [= <- <-]. split; [done|]. split; [done|]. split; [|by eauto]. eauto.
  - destruct (run_pass fuel oi finished m) as [r| |] eqn:Hpass; try done.
    pose proof (run_pass_after fuel oi finished m r Hwf Hfin Hpass) as Hr.
    pose proof (run_pass_report fuel oi finished m r Hwf Hpass) as Hrep.
    simpl. destruct r as [[nf m2]|e2 [nf m2]].
    + destruct Hr as (Hwf2 & Htot2 & Hfin2). intros Hrun.
      destruct (IH nf m2 Hwf2 Hfin2 Hrun) as (Hwf' & Htot' & Hnr' & Hall').
      split; [done|]. split; [congruence|]. done.
    + destruct Hr as (Hwf2 & Htot2 & Hnr2). destruct Hrep as (Hne & _).
      intros [= <- <-]. done.
  - intros [= <- <-]. split; [done|]. split; [done|]. split; [|by eauto]. eauto.
Qed.

(** X11. When [run] returns by normal completion, every work-item is
    FINISHED, whatever the kernel and whatever the states the items started
    in; the number of items has not changed. *)
Theorem completion_means_all_finished fuel oi m m' :
  well_formed m →
  run_traced fuel oi m = Returns (Completed, m') →
  all_in_state FINISHED (m_workItems m') ∧
  length (m_workItems m') = length (m_workItems m) ∧
  m_totalWorkItems m' = m_totalWorkItems m.
Proof.
  intros Hwf Hrun. unfold run_traced in Hrun.
  destruct (run_loop fuel oi 0 m) as [[e1 m1]| |] eqn:Hloop; try done.
  destruct (run_loop_after fuel oi 0 m e1 m1 Hwf ltac:(lia) Hloop)
    as (Hwf1 & Htot & _ & Hall).
  simpl in Hrun. unfold well_formed in *.
  destruct e1; try done. injection Hrun as <-.
  rewrite items_emit_if, total_emit_if.
  split; [by apply Hall|]. split; [lia|done].
Qed.

(** With no item READY, a pass changes nothing. *)
Lemma run_items_idle fuel oi finished m :
  well_formed m →
  Forall (λ w, getState w ≠ READY) (m_workItems m) →
  run_items fuel oi finished m = Returns (mkTallies 0 0 finished, m).
Proof.
  unfold well_formed, run_items. intros Hwf Hnr.
  destruct (for_loop_total (λ _ s, s = (mkTallies 0 0 finished, m))
              (m_totalWorkItems m) 0 (visit fuel oi) (mkTallies 0 0 finished, m))
    as (s' & -> & ->); [done| |done].
  intros i a Hi ->. exists (mkTallies 0 0 finished, m). split; [|done].
  destruct (lookup_lt_is_Some_2 (m_workItems m) i) as [w Hw]; [lia|].
  apply (visit_skip fuel oi i _ m w Hw).
  by apply (Forall_lookup_1 _ _ _ _ Hnr Hw).
Qed.

Lemma run_loop_idle fuel oi finished m :
  well_formed m → (finished < m_totalWorkItems m)%nat →
  Forall (λ w, getState w ≠ READY) (m_workItems m) →
  run_loop fuel oi finished m = OutOfFuel.
Proof.
  intros Hwf Hlt Hnr. induction fuel as [|fuel IH].
  - simpl. by rewrite decide_True.
  - assert (Hpass : run_pass fuel oi finished m = Returns (Continue (finished, m))).
    { unfold run_pass. rewrite (run_items_idle fuel oi finished m Hwf Hnr). simpl.
      unfold check_barriers. simpl.
      rewrite decide_False by lia. simpl.
      unfold check_wait_events. simpl. by rewrite decide_False by lia. }
    by rewrite (run_loop_step fuel oi finished m _ Hlt Hpass).
Qed.

(** X12. Called on a group that has work-items, none of them READY, [run]
    never returns: every pass skips every item, the three counters stay at
    0, and the loop condition holds for ever. No loop bound is enough. *)
Theorem run_without_ready_item fuel oi m :
  well_formed m → (0 < m_totalWorkItems m)%nat →
  Forall (λ w, getState w ≠ READY) (m_workItems m) →
  run_traced fuel oi m = OutOfFuel ∧ run fuel oi m = OutOfFuel.
Proof.
  intros Hwf Hpos Hnr.
  assert (Hrun : run_traced fuel oi m = OutOfFuel).
  { unfold run_traced. by rewrite (run_loop_idle fuel oi 0 m Hwf Hpos Hnr). }
  split; [done|]. unfold run. by rewrite Hrun.
Qed.

(** X13. [run] can be called once: when a call on a group that has
    work-items has returned, by completion or by divergence, no item is
    READY, and a second call on what the first left never returns. *)
Theorem run_is_one_shot fuel oi m e m' :
  well_formed m → (0 < m_totalWorkItems m)%nat →
  run_traced fuel oi m = Returns (e, m') →
  Forall (λ w, getState w ≠ READY) (m_workItems m') ∧
  ∀ fuel' oi', run_traced fuel' oi' m' = OutOfFuel.
Proof.
  intros Hwf Hpos Hrun. unfold run_traced in Hrun.
  destruct (run_loop fuel oi 0 m) as [[e1 m1]| |] eqn:Hloop; try done.
  destruct (run_loop_after fuel oi 0 m e1 m1 Hwf ltac:(lia) Hloop)
    as (Hwf1 & Htot & Hnr & _).
  assert (Hm' : well_formed m' ∧ m_totalWorkItems m' = m_totalWorkItems m ∧
                m_workItems m' = m_workItems m1).
  { simpl in Hrun. destruct e1; injection Hrun as <- <-;
      rewrite ?items_emit_if, ?total_emit_if; (split; [solve_well_formed|done]). }
  destruct Hm' as (Hwf' & Htot' & Hitems). rewrite Hitems.
  split; [done|]. intros fuel' oi'. unfold run_traced.
  rewrite (run_loop_idle fuel' oi' 0 m' Hwf'); [done|lia|by rewrite Hitems].
Qed.

(** Without trace, the [for] loop of a pass writes nothing. *)
Lemma run_items_quiet fuel finished m t m1 :
  run_items fuel false finished m = Returns (t, m1) → cout m1 = cout m.
Proof.
  unfold run_items. intros Hrun.
  apply (for_loop_returns (λ _ s, cout s.2 = cout m) _ _ _ _ _ Hrun); [done|].
  intros i [t0 m0] b _ Hc Hvisit. simpl in Hc.
  destruct (m_workItems m0 !! i) as [w|] eqn:Hw;
    [|unfold visit in Hvisit; by rewrite Hw in Hvisit].
  destruct (decide (getState w = READY)) as [Hst|Hst].
  - destruct (proj1 (visit_ready fuel false i t0 m0 w b Hw Hst) Hvisit)
      as (w' & wg' & _ & ->).
    done.
  - rewrite (visit_skip fuel false i t0 m0 w Hw Hst) in Hvisit.
    by injection Hvisit as <-.
Qed.

Lemma run_pass_quiet fuel finished m r :
  well_formed m →
  run_pass fuel false finished m = Returns r →
  match r with
  | Continue (_, m2) => cout m2 = cout m
  | Return e (_, m2) => cout m2 = cout m ++ report e
  end.
Proof.
  intros Hwf. unfold run_pass.
  destruct (run_items fuel false finished m) as [[t m1]| |] eqn:Hrun; try done.
  destruct (pass_end fuel false finished m t m1 Hwf Hrun) as (_ & Hwf1 & _).
  apply run_items_quiet in Hrun as Hq.
  simpl. unfold check_barriers.
  destruct (decide (numBarriers t = m_totalWorkItems m1)) as [HbT|HbT].
  - rewrite release_all_spec by done. simpl. unfold check_wait_events. simpl.
    destruct (decide (numWaitEvents t = m_totalWorkItems m1)) as [HwT|HwT].
    + rewrite release_all_spec by solve_well_formed. simpl. by intros [= <-].
    + destruct (decide (0 < numWaitEvents t)%nat) as [HwP|HwP].
      * simpl. intros [= <-]. simpl. by rewrite Hq.
      * simpl. by intros [= <-].
  - destruct (decide (0 < numBarriers t)%nat) as [HbP|HbP].
    + simpl. intros [= <-]. simpl. by rewrite Hq.
    + simpl. unfold check_wait_events.
      destruct (decide (numWaitEvents t = m_totalWorkItems m1)) as [HwT|HwT].
      * rewrite release_all_spec by done. simpl. by intros [= <-].
      * destruct (decide (0 < numWaitEvents t)%nat) as [HwP|HwP].
        -- simpl. intros [= <-]. simpl. by rewrite Hq.
        -- simpl. by intros [= <-].
Qed.

Lemma run_loop_quiet fuel finished m e m' :
  well_formed m →
  run_loop fuel false finished m = Returns (e, m') →
  cout m' = cout m ++ report e.
Proof.
  revert finished m. induction fuel as [|fuel IH]; intros finished m Hwf; simpl;
    case_decide as Hc; try done.
  - intros [= <- <-]. simpl. by rewrite app_nil_r.
  - destruct (run_pass fuel false finished m) as [r| |] eqn:Hpass; try done.
    pose proof (run_pass_quiet fuel finished m r Hwf Hpass) as Hq.
    pose proof (run_pass_report fuel false finished m r Hwf Hpass) as Hrep.
    simpl. destruct r as [[nf m2]|e2 [nf m2]].
    + destruct Hrep as (Hwf2 & _). intros Hrun.
      rewrite (IH nf m2 Hwf2 Hrun). by rewrite Hq.
    + by intros [= <- <-].
  - intros [= <- <-]. simpl. by rewrite app_nil_r.
Qed.

(** X14. With [outputInstructions] false, [run] writes nothing but its
    verdict: when it returns, standard output has grown by exactly the
    divergence report of its exit, and by nothing at all on normal
    completion. *)
Theorem run_quiet fuel m e m' :
  well_formed m →
  run_traced fuel false m = Returns (e, m') →
  cout m' = cout m ++ report e.
Proof.
  intros Hwf Hrun. unfold run_traced in Hrun.
  destruct (run_loop fuel false 0 m) as [[e1 m1]| |] eqn:Hloop; try done.
  pose proof (run_loop_quiet fuel 0 m e1 m1 Hwf Hloop) as Hq.
  simpl in Hrun. destruct e1; injection Hrun as <- <-; done.
Qed.

End SchedulerLaws.

(** ** The identity of a group *)

Section IdentityLaws.
Context {Memory Kernel WorkItem : Type}.
Context `{!MemoryOps Memory} `{!KernelOps Memory Kernel}
        `{!WorkItemOps Memory Kernel WorkItem}.
Implicit Types (wg : WorkGroup Memory).



End IdentityLaws.

(** ** The dumps *)

Section DumpLaws.
Context {Memory WorkItem : Type} `{!DumpOps Memory WorkItem}.
Implicit Types (m : Machine Memory WorkItem).

Lemma emit_emit (a b : list out) m : emit b (emit a m) = emit (a ++ b) m.
Proof. unfold emit. simpl. by rewrite app_assoc. Qed.

Lemma emit_nil m : emit [] m = m.
Proof. unfold emit. rewrite app_nil_r. by destruct m. Qed.

(** X16. [dumpPrivateMemory] only writes: it returns, the group and the
    items are as they were, and standard output has grown by exactly, for
    each work-item in index order, a separator followed by the dump of the
    private memory of that item. *)
Theorem dumps_only_write m :
  well_formed m →
  ∃ m', dumpPrivateMemory m = Returns m' ∧
        cout m' = cout m ++ private_dump (m_workItems m) ∧
        group m' = group m ∧
        m_workItems m' = m_workItems m ∧
        m_totalWorkItems m' = m_totalWorkItems m.
Proof.
  unfold well_formed. intros Hwf. unfold dumpPrivateMemory.
  destruct (for_loop_total
    (λ i m', m' = emit (private_dump (take i (m_workItems m))) m)
    (m_totalWorkItems m) 0
    (λ i m0, match m_workItems m0 !! i with
             | None => Aborts
             | Some workItem =>
                 Returns (emit (WorkItem_dumpPrivateMemory workItem) (emit [Sep] m0))
             end) m) as (m' & -> & ->).
  - rewrite take_0. unfold private_dump. simpl. by rewrite emit_nil.
  - intros i a Hi ->. simpl.
    destruct (lookup_lt_is_Some_2 (m_workItems m) i) as [w Hw]; [lia|].
    rewrite Hw. eexists. split; [done|].
    rewrite !emit_emit. f_equal.
    rewrite (take_S_r _ _ _ Hw). unfold private_dump.
    rewrite fmap_app, join_app. simpl. by rewrite app_nil_r.
  - eexists. split; [done|]. simpl. by rewrite take_ge by lia.
Qed.

End DumpLaws.

(** ** The further properties on the example groups *)

Lemma registry_invariant_witness :
  registry_inv
    (replay [OpAsyncCopy example_copy 0; OpWaitEvent 1; OpAsyncCopy other_copy 0;
             OpGroupCopy] (wrap_init, [])).1.
Proof.
  apply (registry_invariant wrap_init);
    [reflexivity | reflexivity | reflexivity | vm_compute; reflexivity].
Defined.

Lemma registry_inv_script_group (n : nat) : registry_inv (script_group n).
Proof.
  unfold registry_inv, script_group. simpl. split; [lia|].
  split; [|split; [|split]].
  - intros h copies. by rewrite lookup_empty.
  - intros h. rewrite lookup_empty. by intros [? ?].
  - intros h1 h2 c. by rewrite lookup_empty.
  - apply empty_subseteq.
Qed.

Lemma distinct_requests_distinct_handles_witness :
  (async_copy other_copy 0 (async_copy example_copy 0 (script_group 1)).2).1
    ≠ (async_copy example_copy 0 (script_group 1)).1.
Proof.
  apply distinct_requests_distinct_handles;
    [apply registry_inv_script_group | vm_compute; reflexivity | discriminate].
Defined.

Lemma group_copy_nothing_awaited_witness : group_copy pending_group = pending_group.
Proof. apply group_copy_nothing_awaited. reflexivity. Defined.

Lemma request_wait_copy_cycle_witness :
  ∃ wg2, wait_event (async_copy example_copy 0 (script_group 1)).1
           (async_copy example_copy 0 (script_group 1)).2 = Some wg2 ∧
         (m_localMemory (group_copy wg2), m_globalMemory (group_copy wg2))
           = copy_spec (∅, example_global) example_copy ∧
         m_pendingEvents (group_copy wg2) = ∅ ∧
         m_nextEvent (group_copy wg2) = uint64_succ 1.
Proof.
  destruct (request_wait_copy_cycle (script_group 1) example_copy 0)
    as (wg2 & Hwait & _ & Hmem & Hp & _ & Hn & _);
    [reflexivity | vm_compute; reflexivity | reflexivity |].
  exists wg2. split; [exact Hwait|]. split; [exact Hmem|]. split; [exact Hp|exact Hn].
Defined.

Lemma pass_accounting_witness :
  ∃ t m1,
    run_items 2 false 0 (script_machine [[IBarrier]; []]) = Returns (t, m1) ∧
    Forall (λ w, getState w ≠ READY) (m_workItems m1) ∧
    (numBarriers t + numWaitEvents t + numFinished t
       = 0 + count_state READY (m_workItems (script_machine [[IBarrier]; []])))%nat.
Proof.
  evaluate (run_items 2 false 0 (script_machine [[IBarrier]; []])) as Hrun.
  eexists _, _. split; [exact Hrun|].
  destruct (pass_accounting 2 false 0 _ _ _
              (eq_refl : well_formed (script_machine [[IBarrier]; []])) Hrun)
    as (Hnr & _ & _ & _ & _ & _ & Hsum).
  split; [exact Hnr|exact Hsum].
Defined.

Lemma completion_means_all_finished_witness :
  ∃ m', run_traced 6 false (script_machine [[IBarrier; INop]; [IBarrier]])
          = Returns (Completed, m') ∧
        all_in_state FINISHED (m_workItems m').
Proof.
  evaluate (run_traced 6 false (script_machine [[IBarrier; INop]; [IBarrier]])) as Hrun.
  eexists. split; [exact Hrun|].
  exact (proj1 (completion_means_all_finished 6 false _ _
                  (eq_refl : well_formed
                     (script_machine [[IBarrier; INop]; [IBarrier]])) Hrun)).
Defined.

Lemma run_without_ready_item_witness :
  run_traced 7 true finished_machine = OutOfFuel ∧
  run 7 true finished_machine = OutOfFuel.
Proof.
  apply run_without_ready_item; [reflexivity | simpl; lia |].
  repeat constructor. discriminate.
Defined.

Lemma run_is_one_shot_witness :
  ∃ m', run_traced 3 false (script_machine [[IBarrier]; []])
          = Returns (BarrierDivergence, m') ∧
        ∀ fuel' oi', run_traced fuel' oi' m' = OutOfFuel.
Proof.
  evaluate (run_traced 3 false (script_machine [[IBarrier]; []])) as Hrun.
  eexists. split; [exact Hrun|].
  exact (proj2 (run_is_one_shot 3 false _ _ _
                  (eq_refl : well_formed (script_machine [[IBarrier]; []]))
                  ltac:(simpl; lia) Hrun)).
Defined.

Lemma run_quiet_witness :
  ∃ m', run_traced 3 false (script_machine [[IBarrier]; []])
          = Returns (BarrierDivergence, m') ∧
        cout m' = [] ++ msg_barrier_divergence.
Proof.
  evaluate (run_traced 3 false (script_machine [[IBarrier]; []])) as Hrun.
  eexists. split; [exact Hrun|].
  exact (run_quiet 3 _ _ _
           (eq_refl : well_formed (script_machine [[IBarrier]; []])) Hrun).
Defined.

Lemma group_copy_direction_witness :
  m_globalMemory (group_copy awaited_group) = m_globalMemory awaited_group.
Proof.
  apply (proj1 (group_copy_direction awaited_group)).
  intros h copies d Hh Hl Hd. simpl in Hh, Hl.
  apply elem_of_singleton in Hh as ->.
  rewrite lookup_singleton_eq in Hl. injection Hl as <-.
  by apply list_elem_of_singleton in Hd as ->.
Defined.


Lemma dumps_only_write_witness :
  ∃ m', dumpPrivateMemory (script_machine [[INop]; []]) = Returns m' ∧
        cout m' = [Sep; Num 1; Endl; Sep; Num 0; Endl] ∧
        m_workItems m' = m_workItems (script_machine [[INop]; []]).
Proof.
  destruct (dumps_only_write (script_machine [[INop]; []]) eq_refl)
    as (m' & Hrun & Hcout & _ & Hitems & _).
  exists m'. split; [exact Hrun|]. split; [exact Hcout|exact Hitems].
Defined.
